(** * PeeR Power-Editor: document sectioning and snippet patching

    A shallow embedding of the string-processing core of [src/App.tsx]:
    [modularizeText] (the sectionizer), the offset splice performed by
    [updateDocumentAtSelection], and the snippet fix performed by
    [handleConfirmFix].

    JavaScript strings are sequences of UTF-16 code units; they are modelled
    as lists of code units ([N]).  The regular expressions of the source are
    run by a backtracking matcher with the priorities of ECMAScript (greedy
    quantifiers try the longest repetition first, lazy ones the shortest). *)

From Stdlib Require Import Ascii String DecimalString DecimalN.
From Stdlib Require Import List NArith ZArith Lia Bool.
Import ListNotations.

(* ================================================================== *)
(** ** JavaScript strings *)

Module JS.

Definition codeunit := N.
Definition JSString := list codeunit.

(** An ASCII literal as a JavaScript string. *)
Definition lit (s : string) : JSString :=
  map N_of_ascii (list_ascii_of_string s).

Definition LF : codeunit := 10%N.
Definition CR : codeunit := 13%N.
Definition SPACE : codeunit := 32%N.
Definition HASH : codeunit := 35%N.
Definition DOLLAR : codeunit := 36%N.

(** [LineTerminator] of ECMAScript: LF, CR, U+2028, U+2029. *)
Definition isLineTerminator (c : codeunit) : bool :=
  ((c =? 10) || (c =? 13) || (c =? 8232) || (c =? 8233))%N.

(** The class [\s], also the set stripped by [String.prototype.trim]:
    [WhiteSpace] and [LineTerminator]. *)
Definition isWhiteSpace (c : codeunit) : bool :=
  ((c =? 9) || (c =? 10) || (c =? 11) || (c =? 12) || (c =? 13) ||
   (c =? 32) || (c =? 160) || (c =? 5760) ||
   ((8192 <=? c) && (c <=? 8202)) ||
   (c =? 8232) || (c =? 8233) || (c =? 8239) || (c =? 8287) ||
   (c =? 12288) || (c =? 65279))%N.

(** The class [.] without the [s] flag. *)
Definition isDot (c : codeunit) : bool := negb (isLineTerminator c).

Definition isHash (c : codeunit) : bool := (c =? HASH)%N.

(** The class [[A-Z\s]]. *)
Definition isUpperOrSpace (c : codeunit) : bool :=
  ((65 <=? c) && (c <=? 90))%N || isWhiteSpace c.

(** Truthiness of a string: the empty string is falsy. *)
Definition truthy (s : JSString) : bool :=
  match s with [] => false | _ :: _ => true end.

(** [a || b] on strings. *)
Definition orElse (a b : JSString) : JSString := if truthy a then a else b.

Fixpoint eqb (a b : JSString) : bool :=
  match a, b with
  | [], [] => true
  | x :: a', y :: b' => (x =? y)%N && eqb a' b'
  | _, _ => false
  end.

(** [String.prototype.trim]. *)
Fixpoint trimStart (s : JSString) : JSString :=
  match s with
  | c :: s' => if isWhiteSpace c then trimStart s' else s
  | [] => []
  end.

Definition trimEnd (s : JSString) : JSString := rev (trimStart (rev s)).

Definition trim (s : JSString) : JSString := trimEnd (trimStart s).

(** [Array.prototype.join(sep)] on an array of strings. *)
Fixpoint join (sep : JSString) (parts : list JSString) : JSString :=
  match parts with
  | [] => []
  | [p] => p
  | p :: ps => p ++ sep ++ join sep ps
  end.

(** [text.split(/\r?\n/)]: the text is cut at every LF, and a CR directly
    before that LF belongs to the separator.  The result always has at least
    one element. *)
Fixpoint splitLines (s : JSString) : list JSString :=
  match s with
  | [] => [[]]
  | c :: rest =>
      if (c =? LF)%N then [] :: splitLines rest
      else
        match (c =? CR)%N, rest with
        | true, d :: rest' =>
            if (d =? LF)%N then [] :: splitLines rest'
            else match splitLines rest with
                 | l :: ls => (c :: l) :: ls
                 | [] => [[c]]
                 end
        | _, _ =>
            match splitLines rest with
            | l :: ls => (c :: l) :: ls
            | [] => [[c]]
            end
        end
  end.

(** [prefix.startsWith]-style test used by [indexOf]. *)
Fixpoint startsWith (s pat : JSString) {struct pat} : bool :=
  match pat, s with
  | [], _ => true
  | p :: pat', c :: s' => (c =? p)%N && startsWith s' pat'
  | _ :: _, [] => false
  end.

(** [String.prototype.indexOf(pat)]: the lowest offset at which [pat]
    occurs, [None] for the result -1. *)
Fixpoint indexOf (s pat : JSString) : option nat :=
  if startsWith s pat then Some 0
  else match s with
       | [] => None
       | _ :: s' => option_map S (indexOf s' pat)
       end.

(** [String.prototype.includes(pat)]. *)
Definition includes (s pat : JSString) : bool :=
  match indexOf s pat with Some _ => true | None => false end.

(** [GetSubstitution] of ECMAScript for a string pattern (no capture
    groups, no named groups): [$$] is a dollar sign, [$&] the matched text,
    [$`] the text before the match and [$'] the text after it; every other
    character, a lone [$] included, stands for itself. *)
Fixpoint GetSubstitution (matched before after template : JSString) : JSString :=
  match template with
  | [] => []
  | c :: t =>
      if (c =? DOLLAR)%N then
        match t with
        | d :: t' =>
            if (d =? 36)%N then DOLLAR :: GetSubstitution matched before after t'
            else if (d =? 38)%N then matched ++ GetSubstitution matched before after t'
            else if (d =? 96)%N then before ++ GetSubstitution matched before after t'
            else if (d =? 39)%N then after ++ GetSubstitution matched before after t'
            else c :: GetSubstitution matched before after t
        | [] => [c]
        end
      else c :: GetSubstitution matched before after t
  end.

(** [String.prototype.replace(pat, template)] with a string pattern: only
    the first occurrence is replaced. *)
Definition replace (s pat template : JSString) : JSString :=
  match indexOf s pat with
  | None => s
  | Some pos =>
      let before := firstn pos s in
      let after := skipn (pos + length pat) s in
      before ++ GetSubstitution pat before after template ++ after
  end.

(** [String.prototype.substring(start, end)] on integer arguments: both are
    clamped to [0 .. length] and swapped when out of order. *)
Definition clamp (len : nat) (i : Z) : nat := Nat.min (Z.to_nat i) len.

Definition substring (s : JSString) (start end_ : Z) : JSString :=
  let a := clamp (length s) start in
  let b := clamp (length s) end_ in
  let from := Nat.min a b in
  let to := Nat.max a b in
  firstn (to - from) (skipn from s).

(** [String.prototype.substring(start)]. *)
Definition substringFrom (s : JSString) (start : Z) : JSString :=
  substring s start (Z.of_nat (length s)).

(** Decimal rendering of a non-negative integer in a template literal. *)
Definition ofNumber (n : N) : JSString :=
  lit (NilEmpty.string_of_uint (N.to_uint n)).

End JS.
Import JS.

(* ================================================================== *)
(** ** Backtracking matcher for the quantifiers of the heading patterns *)

Module RegExp.

Section Quantifiers.
Variable R : Type.

(** [cls{min,}], greedy: the longest repetition is tried first, and one
    character is given back each time the continuation [k] fails.  [k]
    receives the text matched so far ([acc] extended) and the rest. *)
Fixpoint greedy (cls : codeunit -> bool) (min : nat) (acc s : JSString)
         (k : JSString -> JSString -> option R) : option R :=
  let stop := match min with O => k acc s | S _ => None end in
  match s with
  | c :: s' =>
      if cls c then
        match greedy cls (pred min) (acc ++ [c]) s' k with
        | Some r => Some r
        | None => stop
        end
      else stop
  | [] => stop
  end.

(** [cls{min,}?], lazy: the shortest repetition is tried first. *)
Fixpoint lazy (cls : codeunit -> bool) (min : nat) (acc s : JSString)
         (k : JSString -> JSString -> option R) : option R :=
  let stop := match min with O => k acc s | S _ => None end in
  match stop with
  | Some r => Some r
  | None =>
      match s with
      | c :: s' => if cls c then lazy cls (pred min) (acc ++ [c]) s' k else None
      | [] => None
      end
  end.

(** [$] without the [m] flag. *)
Definition atEnd (s : JSString) (r : R) : option R :=
  match s with [] => Some r | _ :: _ => None end.
End Quantifiers.

Arguments greedy {R} cls min acc s k.
Arguments lazy {R} cls min acc s k.
Arguments atEnd {R} s r.

(** The array returned by [String.prototype.match] for the two patterns:
    index 1 and index 2 (index 2 is [undefined] for the second pattern). *)
Record MatchArray := mkMatch { group1 : JSString; group2 : option JSString }.

(** [/^\s*(#+)\s*(.+?)\s*$/] *)
Definition hashHeading (line : JSString) : option MatchArray :=
  greedy isWhiteSpace 0 [] line (fun _ s1 =>
  greedy isHash 1 [] s1 (fun g1 s2 =>
  greedy isWhiteSpace 0 [] s2 (fun _ s3 =>
  lazy isDot 1 [] s3 (fun g2 s4 =>
  greedy isWhiteSpace 0 [] s4 (fun _ s5 =>
  atEnd s5 (mkMatch g1 (Some g2))))))).

(** [/^\s*([A-Z\s]{4,})\s*$/] *)
Definition upperHeading (line : JSString) : option MatchArray :=
  greedy isWhiteSpace 0 [] line (fun _ s1 =>
  greedy isUpperOrSpace 4 [] s1 (fun g1 s2 =>
  greedy isWhiteSpace 0 [] s2 (fun _ s3 =>
  atEnd s3 (mkMatch g1 None)))).

End RegExp.
Import RegExp.

(* ================================================================== *)
(** ** The sectionizer: [modularizeText] *)

Record PaperSection := mkSection
  { id : JSString; title : JSString; content : JSString }.

Definition INITIAL_SECTIONS : list PaperSection :=
  [ mkSection (lit "abstract") (lit "Abstract")
      (lit "Artificial Intelligence (AI) has rapidly evolved, becoming a tapestry of innovation in various fields. It is paramount to underscore the significance of Large Language Models (LLMs) in this landscape.");
    mkSection (lit "intro") (lit "Introduction")
      (lit "The rapid proliferation of digital technologies has ushered in a new era of information dissemination. It is important to note that the data landscape is shifting.");
    mkSection (lit "methods") (lit "Methods")
      (lit "We utilize a novel framework to assess the performance of transformers in zero-shot environments.");
    mkSection (lit "refs") (lit "References") [] ].

(** [line.match(re1) || line.match(re2)] *)
Definition headerMatch (line : JSString) : option MatchArray :=
  match hashHeading line with
  | Some m => Some m
  | None => upperHeading line
  end.

(** [headerMatch[2] || headerMatch[1]] *)
Definition headerText (m : MatchArray) : JSString :=
  match group2 m with
  | Some t => orElse t (group1 m)
  | None => group1 m
  end.

(** The mutable locals of [modularizeText]. *)
Record Scan := mkScan
  { sections : list PaperSection;
    currentHeader : JSString;
    currentContent : list JSString;
    sectionCount : nat }.

(** [`sec-${sectionCount++}-${Date.now()}`]; [now k] is the clock reading of
    the call of [Date.now] made while [sectionCount] is [k]. *)
Definition freshId (now : nat -> N) (k : nat) : JSString :=
  lit "sec-" ++ ofNumber (N.of_nat k) ++ lit "-" ++ ofNumber (now k).

(** The guarded [sections.push] (it occurs twice, with two default
    titles). *)
Definition flush (now : nat -> N) (dflt : JSString) (st : Scan) : Scan :=
  if negb (Nat.eqb (length (currentContent st)) 0) || truthy (currentHeader st) then
    mkScan (sections st ++
              [mkSection (freshId now (sectionCount st))
                         (orElse (currentHeader st) dflt)
                         (trim (join [LF] (currentContent st)))])
           (currentHeader st) (currentContent st) (S (sectionCount st))
  else st.

(** The body of [lines.forEach]. *)
Definition scanLine (now : nat -> N) (st : Scan) (line : JSString) : Scan :=
  match headerMatch line with
  | Some m =>
      let st' := flush now (lit "Front Matter") st in
      mkScan (sections st') (headerText m) [] (sectionCount st')
  | None =>
      mkScan (sections st) (currentHeader st) (currentContent st ++ [line])
             (sectionCount st)
  end.

Definition scanStart : Scan := mkScan [] [] [] 0.

Definition modularizeText (now : nat -> N) (text : JSString) : list PaperSection :=
  let lines := splitLines text in
  let st := fold_left (scanLine now) lines scanStart in
  let st' := flush now (lit "Introduction") st in
  match sections st' with
  | [] => INITIAL_SECTIONS
  | _ :: _ => sections st'
  end.

(** The pair compared by the claims about titles and contents. *)
Definition titled (s : PaperSection) : JSString * JSString := (title s, content s).

(* ================================================================== *)
(** ** The application state and its two patching handlers *)

Inductive IssueType := warning | error | info | success.

Record AnalysisIssue := mkIssue
  { issueId : JSString;
    issueType : IssueType;
    issueTitle : JSString;
    description : JSString;
    suggestion : option JSString;
    replacement : option JSString;
    snippet : option JSString;
    location : option JSString }.

(** [AnalysisResult]; the fields [stats] and [discovery], which the handlers
    below copy unchanged, are left out. *)
Record AnalysisResult := mkResult
  { issues : list AnalysisIssue;
    generalFeedback : JSString;
    loading : bool }.

Record Selection := mkSelection
  { selText : JSString;
    selStart : Z;
    selEnd : Z;
    sectionId : option JSString }.

Module App.

(** The [useState] cells read or written by the two handlers. *)
Record State := mkState
  { sections : list PaperSection;
    activeSectionId : JSString;
    isFullDocMode : bool;
    analysisResult : option AnalysisResult;
    previewingIssue : option AnalysisIssue;
    selection : option Selection;
    showMicroEditTooltip : bool }.

(** [`# ${s.title}\n\n${s.content}`] *)
Definition block (s : PaperSection) : JSString :=
  lit "# " ++ title s ++ [LF; LF] ++ content s.

(** [sections.map(...).join('\n\n')] *)
Definition fullText (secs : list PaperSection) : JSString :=
  join [LF; LF] (map block secs).

(** Truthiness of an optional string ([undefined] and [''] are falsy). *)
Definition present (o : option JSString) : bool :=
  match o with Some s => truthy s | None => false end.

(** [body.substring(0, start) + newSegment + body.substring(end)], the
    expression spliced into the full text and into a section's content. *)
Definition spliceAtOffsets (body : JSString) (start end_ : Z) (newSegment : JSString)
  : JSString :=
  substring body 0 start ++ newSegment ++ substringFrom body end_.

(** [{ ...s, content: c }] *)
Definition withContent (s : PaperSection) (c : JSString) : PaperSection :=
  mkSection (id s) (title s) c.

Definition setSections (st : State) (secs : list PaperSection) : State :=
  mkState secs (activeSectionId st) (isFullDocMode st) (analysisResult st)
          (previewingIssue st) (selection st) (showMicroEditTooltip st).

Definition resetSelection (st : State) : State :=
  mkState (sections st) (activeSectionId st) (isFullDocMode st) (analysisResult st)
          (previewingIssue st) None false.

Definition updateDocumentAtSelection (now : nat -> N) (st : State)
           (newSegment : JSString) (skipSelectionReset : bool) : State :=
  match selection st with
  | None => st
  | Some sel =>
      let st1 :=
        if isFullDocMode st && negb (present (sectionId sel)) then
          setSections st
            (modularizeText now
               (spliceAtOffsets (fullText (sections st)) (selStart sel) (selEnd sel)
                                newSegment))
        else
          let targetId :=
            match sectionId sel with
            | Some sid => orElse sid (activeSectionId st)
            | None => activeSectionId st
            end in
          setSections st
            (map (fun s =>
                    if JS.eqb (id s) targetId
                    then withContent s
                           (spliceAtOffsets (content s) (selStart sel) (selEnd sel)
                                            newSegment)
                    else s)
                 (sections st))
      in
      if negb skipSelectionReset then resetSelection st1 else st1
  end.

(** The function mapped over the sections by [handleConfirmFix]. *)
Definition fixSection (snip repl : JSString) (s : PaperSection) : PaperSection :=
  if includes (content s) snip
  then withContent s (JS.replace (content s) snip repl)
  else s.

(** [{ ...analysisResult, issues: analysisResult.issues.filter(i => i.id !== issue.id) }] *)
Definition dropIssue (issue : AnalysisIssue) (r : AnalysisResult) : AnalysisResult :=
  mkResult (filter (fun i => negb (JS.eqb (issueId i) (issueId issue))) (issues r))
           (generalFeedback r) (loading r).

Definition handleConfirmFix (st : State) (issue : AnalysisIssue) : State :=
  match snippet issue, replacement issue with
  | Some snip, Some repl =>
      if negb (truthy snip) || negb (truthy repl) then st
      else
        mkState (map (fixSection snip repl) (sections st))
                (activeSectionId st) (isFullDocMode st)
                (option_map (dropIssue issue) (analysisResult st))
                None
                (selection st) (showMicroEditTooltip st)
  | _, _ => st
  end.

End App.

(* ================================================================== *)
(** ** The heading test in the words of the specification

    Used only to compare the specification's wording with [headerMatch]. *)

Module Spec.

Definition isUpper (c : codeunit) : bool := ((65 <=? c) && (c <=? 90))%N.

Fixpoint dropHashes (s : JSString) : JSString :=
  match s with
  | c :: s' => if isHash c then dropHashes s' else s
  | [] => []
  end.

(** (a) one or more leading [#] characters followed by non-empty trimmed
    text. *)
Definition hashStyle (line : JSString) : bool :=
  match line with
  | c :: _ => isHash c && truthy (trim (dropHashes line))
  | [] => false
  end.

(** (b) the entire line, trimmed, is at least 4 characters drawn only from
    uppercase letters and spaces. *)
Definition upperStyle (line : JSString) : bool :=
  let t := trim line in
  (4 <=? length t) && forallb (fun c => isUpper c || (c =? SPACE)%N) t.

Definition headingLine (line : JSString) : bool :=
  hashStyle line || upperStyle line.

End Spec.

(** The classification made by [scanLine]. *)
Definition isHeadingLine (line : JSString) : bool :=
  match headerMatch line with Some _ => true | None => false end.

(** The titles of the heading lines, in line order. *)
Definition headingTitles (lines : list JSString) : list JSString :=
  flat_map (fun l => match headerMatch l with
                     | Some m => [headerText m]
                     | None => []
                     end) lines.

(** The titles a document is expected to show, in document order: the
    headings as encountered, after "Front Matter" when the text starts with
    content; "Introduction" alone when there is no heading. *)
Definition expectedTitles (lines : list JSString) : list JSString :=
  match headingTitles lines with
  | [] => [lit "Introduction"]
  | hs => match lines with
          | l :: _ => if isHeadingLine l then hs else lit "Front Matter" :: hs
          | [] => hs
          end
  end.

(** The titles pushed by the scan, from a state with header [h] and a
    content buffer that is empty or not ([buffered]). *)
Fixpoint scanTitles (h : JSString) (buffered : bool) (lines : list JSString)
  : list JSString :=
  match lines with
  | [] => if buffered || truthy h then [orElse h (lit "Introduction")] else []
  | l :: ls =>
      match headerMatch l with
      | Some m =>
          (if buffered || truthy h then [orElse h (lit "Front Matter")] else [])
            ++ scanTitles (headerText m) false ls
      | None => scanTitles h true ls
      end
  end.

(** Concrete documents and issues used by the examples below. *)
Definition docState (secs : list PaperSection) (pending : list AnalysisIssue) : App.State :=
  App.mkState secs (lit "abstract") false
              (Some (mkResult pending [] false)) None None false.

Definition fixIssue (name snip repl : JSString) : AnalysisIssue :=
  mkIssue name warning (lit "Wording") (lit "Prefer the plain word.")
          None (Some repl) (Some snip) None.

Definition twoSectionState : App.State :=
  App.mkState
    [mkSection (lit "s1") (lit "One") (lit "The cat sat.");
     mkSection (lit "s2") (lit "Two") (lit "The cat sat.")]
    (lit "s1") true None None
    (Some (mkSelection (lit "cat") 4 7 (Some (lit "s2")))) true.

(* ================================================================== *)
(** ** Predicates used in the statements and in the invariants *)

(** The snippet occurs somewhere in the body. *)
Definition occursIn (snip body : JSString) : Prop :=
  exists pre post, body = pre ++ snip ++ post.

(** The occurrence of a snippet at the lowest offset of a body. *)
Definition firstOccurrence (body pre snip post : JSString) : Prop :=
  body = pre ++ snip ++ post /\
  forall pre' post', body = pre' ++ snip ++ post' -> length pre <= length pre'.

(** Every character of the string is in the class. *)
Definition allOf (cls : codeunit -> bool) (s : JSString) : Prop := forallb cls s = true.

(** The language of [/^\s*(#+)\s*(.+?)\s*$/]: whitespace, one or more [#],
    whitespace, a non-empty text free of line terminators, whitespace. *)
Definition HashShape (line : JSString) : Prop :=
  exists w1 h w2 t w3,
    line = w1 ++ h ++ w2 ++ t ++ w3 /\
    allOf isWhiteSpace w1 /\ h <> [] /\ allOf isHash h /\ allOf isWhiteSpace w2 /\
    t <> [] /\ allOf isDot t /\ allOf isWhiteSpace w3.

(** The language of [/^\s*([A-Z\s]{4,})\s*$/]: at least four characters,
    each an uppercase letter A-Z or a whitespace character. *)
Definition UpperShape (line : JSString) : Prop :=
  4 <= length line /\ allOf isUpperOrSpace line.

(** What the lazy group of the first pattern can capture: a text free of
    line terminators that is a single character or has no whitespace at
    either end. *)
Definition titleText (t : JSString) : Prop :=
  t <> [] /\ allOf isDot t /\
  (length t = 1 \/
   (isWhiteSpace (hd SPACE t) = false /\ isWhiteSpace (last t SPACE) = false)).

(** [currentContent.length > 0] *)
Definition buffered (st : Scan) : bool :=
  negb (Nat.eqb (length (currentContent st)) 0).

(** The counter is the number of sections pushed, and the ids are the
    ordinals in push order. *)
Definition numbered (now : nat -> N) (st : Scan) : Prop :=
  sectionCount st = length (sections st) /\
  map id (sections st) = map (freshId now) (seq 0 (length (sections st))).

(** A string is trimmed when it is empty or has no whitespace at either
    end. *)
Definition trimmed (c : JSString) : Prop :=
  c = [] \/ (isWhiteSpace (hd SPACE c) = false /\ isWhiteSpace (last c SPACE) = false).

(** A line that can be joined with LF and split again: it holds no LF and
    does not end with CR. *)
Definition lineOK (l : JSString) : Prop := ~ In LF l /\ last l SPACE <> CR.

(** A line that the scan buffers and that survives a join and a split. *)
Definition contentLine (l : JSString) : Prop := lineOK l /\ headerMatch l = None.

(** The content of a section pushed by the scan: a trimmed text whose lines
    are content lines again. *)
Definition goodContent (c : JSString) : Prop :=
  trimmed c /\ join [LF] (splitLines c) = c /\ Forall contentLine (splitLines c).

(** A section as the scan pushes it. *)
Definition goodSection (s : PaperSection) : Prop :=
  titleText (title s) /\ goodContent (content s).

(** The invariant of the scan over a text whose lines are fit. *)
Definition scanInv (st : Scan) : Prop :=
  Forall goodSection (sections st) /\
  (currentHeader st = [] \/ titleText (currentHeader st)) /\
  Forall contentLine (currentContent st).

(** A line of the input text: not a heading by the uppercase pattern, and
    not ending with CR. *)
Definition plainLine (l : JSString) : Prop :=
  upperHeading l = None /\ last l SPACE <> CR.

(** The lines of [# title], blank line, content. *)
Definition blockLines (s : PaperSection) : list JSString :=
  (lit "# " ++ title s) :: [] :: splitLines (content s).

(** The lines of the full-document view: the blocks, with one blank line
    between two blocks. *)
Fixpoint docLines (secs : list PaperSection) : list JSString :=
  match secs with
  | [] => []
  | s :: rest =>
      blockLines s ++ match rest with [] => [] | _ :: _ => [] :: docLines rest end
  end.

(* ================================================================== *)
(** ** The other handlers of [App.tsx]

    An asynchronous call to the model service is represented by its
    outcome, given to the handler as an argument; the handler is taken to
    run to its end before the next event. *)

(** The outcome of an awaited promise. *)
Inductive Reply (A : Type) : Type :=
| Rejected : Reply A
| Resolved : A -> Reply A.

Arguments Rejected {A}.
Arguments Resolved {A} _.

(** The state cells of [App] that the handlers below use beside
    [App.State]. *)
Record Ui := mkUi
  { appState : App.State;
    microEditLoading : bool;
    isImportModalOpen : bool;
    importText : JSString }.

(** One piece of the highlight backdrop: [<mark>] or transparent text. *)
Record Span := mkSpan { marked : bool; spanText : JSString }.

Module Handlers.

(** [sections.find(s => s.id === activeSectionId) || sections[0]];
    [None] is [undefined]. *)
Definition activeSection (st : App.State) : option PaperSection :=
  match find (fun s => JS.eqb (id s) (App.activeSectionId st)) (App.sections st) with
  | Some s => Some s
  | None => hd_error (App.sections st)
  end.

Definition withSelection (st : App.State) (sel : option Selection) (tooltip : bool)
  : App.State :=
  App.mkState (App.sections st) (App.activeSectionId st) (App.isFullDocMode st)
              (App.analysisResult st) (App.previewingIssue st) sel tooltip.

Definition withTooltip (st : App.State) (tooltip : bool) : App.State :=
  withSelection st (App.selection st) tooltip.

(** The [targetContent] of [handleSelect]; [None] when reading [.content]
    of an undefined [activeSection] throws. *)
Definition targetContent (st : App.State) (sid : option JSString) : option JSString :=
  if App.present sid then
    match sid with
    | Some i =>
        match find (fun s => JS.eqb (id s) i) (App.sections st) with
        | Some s => Some (orElse (content s) [])
        | None => Some []
        end
    | None => Some []
    end
  else if App.isFullDocMode st then Some (App.fullText (App.sections st))
  else option_map content (activeSection st).

(** [handleSelect], on the [selectionStart] and [selectionEnd] of the
    textarea; [None] when it throws. *)
Definition handleSelect (st : App.State) (start end_ : Z) (sid : option JSString)
  : option App.State :=
  if negb (start =? end_)%Z then
    match targetContent st sid with
    | None => None
    | Some target =>
        let selectedText := substring target start end_ in
        if Nat.ltb 1 (length (trim selectedText))
        then Some (withSelection st (Some (mkSelection selectedText start end_ sid)) true)
        else Some (withTooltip st false)
    end
  else if App.showMicroEditTooltip st then Some (withTooltip st false)
  else Some st.

(** [response.text || text], the result of [microEdit], [humanizeText] and
    [anonymizeContent]. *)
Definition textOr (responseText : option JSString) (text : JSString) : JSString :=
  match responseText with
  | Some t => orElse t text
  | None => text
  end.

Definition withApp (ui : Ui) (st : App.State) (loading : bool) : Ui :=
  mkUi st loading (isImportModalOpen ui) (importText ui).

Definition handleMicroEdit (now : nat -> N) (ui : Ui) (reply : Reply (option JSString))
  : Ui :=
  match App.selection (appState ui) with
  | None => ui
  | Some sel =>
      match reply with
      | Rejected => withApp ui (appState ui) false
      | Resolved responseText =>
          withApp ui
                  (App.updateDocumentAtSelection now (appState ui)
                     (textOr responseText (selText sel)) false)
                  false
      end
  end.

(** [handleCiteAtSelection]; the second component is the text of the
    [alert], if one is raised. *)
Definition handleCiteAtSelection (now : nat -> N) (st : App.State) (marker : JSString)
  : App.State * option JSString :=
  match App.selection st with
  | None => (st, Some (lit "Please select a sentence in the editor first."))
  | Some sel =>
      (App.updateDocumentAtSelection now st (selText sel ++ lit " " ++ marker) true, None)
  end.

(** [Array.prototype.findIndex]; [None] is -1. *)
Fixpoint findIndex {A : Type} (p : A -> bool) (l : list A) : option nat :=
  match l with
  | [] => None
  | x :: l' => if p x then Some 0 else option_map S (findIndex p l')
  end.

(** [a[i] = x] on an index within the array. *)
Fixpoint setAt {A : Type} (i : nat) (x : A) (l : list A) : list A :=
  match l, i with
  | [], _ => []
  | _ :: l', 0 => x :: l'
  | y :: l', S j => y :: setAt j x l'
  end.

(** [{ ...s, content: s.content.trim() + separator + fullRef }] *)
Definition appendReference (fullRef : JSString) (s : PaperSection) : PaperSection :=
  let separator := if truthy (trim (content s)) then [LF] else [] in
  App.withContent s (trim (content s) ++ separator ++ fullRef).

Section AddReference.
(** [String.prototype.toLowerCase]; its Unicode case tables are not part of
    the repository. *)
Variable toLowerCase : JSString -> JSString.

Definition isReferences (s : PaperSection) : bool :=
  includes (toLowerCase (title s)) (lit "reference").

(** The updater passed to [setSections] by [handleAddReference]. *)
Definition addReference (fullRef : JSString) (prev : list PaperSection)
  : list PaperSection :=
  let found := findIndex isReferences prev in
  let newState :=
    match found with
    | Some _ => prev
    | None => prev ++ [mkSection (lit "refs-auto") (lit "References") []]
    end in
  let refsIdx :=
    match found with
    | Some i => i
    | None => length newState - 1
    end in
  match nth_error newState refsIdx with
  | Some s => setAt refsIdx (appendReference fullRef s) newState
  | None => newState
  end.

End AddReference.

(** [handleImport] *)
Definition handleImport (now : nat -> N) (ui : Ui) : Ui :=
  if negb (truthy (trim (importText ui))) then ui
  else
    let newSections := modularizeText now (importText ui) in
    match newSections with
    | first :: _ =>
        mkUi (App.mkState newSections (id first) (App.isFullDocMode (appState ui))
                          (App.analysisResult (appState ui)) (App.previewingIssue (appState ui))
                          (App.selection (appState ui)) (App.showMicroEditTooltip (appState ui)))
             (microEditLoading ui) false []
    | [] => ui
    end.

(** [exportPaper]: the text put in the downloaded file (both values of
    [modular] build the same text). *)
Definition exportPaper (st : App.State) (modular : bool) : JSString :=
  if modular
  then join [LF; LF] (map App.block (App.sections st))
  else App.fullText (App.sections st).

Definition withPreview (st : App.State) (p : option AnalysisIssue) : App.State :=
  App.mkState (App.sections st) (App.activeSectionId st) (App.isFullDocMode st)
              (App.analysisResult st) p (App.selection st) (App.showMicroEditTooltip st).

(** [handlePreviewFix] *)
Definition handlePreviewFix (st : App.State) (issue : AnalysisIssue) : App.State :=
  match snippet issue with
  | None => st
  | Some snip =>
      if negb (truthy snip) then st
      else match indexOf (App.fullText (App.sections st)) snip with
           | None => st
           | Some _ => withPreview st (Some issue)
           end
  end.

(** [renderHighlights]: the spans of the backdrop, in order; [None] when
    reading [.content] of an undefined [activeSection] throws. *)
Definition renderHighlights (st : App.State) : option (list Span) :=
  let activeContent :=
    if App.isFullDocMode st then Some (App.fullText (App.sections st))
    else option_map content (activeSection st) in
  match activeContent with
  | None => None
  | Some text =>
      let plain := Some [mkSpan false text] in
      match App.previewingIssue st with
      | None => plain
      | Some issue =>
          match snippet issue with
          | None => plain
          | Some snip =>
              if negb (truthy snip) then plain
              else match indexOf text snip with
                   | None => plain
                   | Some pos =>
                       let p := Z.of_nat pos in
                       let q := Z.of_nat (pos + length snip) in
                       Some [ mkSpan false (substring text 0 p);
                              mkSpan true (substring text p q);
                              mkSpan false (substringFrom text q) ]
                   end
          end
      end
  end.

(** [prev.map(s => s.id === target ? { ...s, content: value } : s)], the
    updater of the textareas' [onChange], of [handleHumanize] and of
    [handleAnonymize]. *)
Definition editSection (target value : JSString) (st : App.State) : App.State :=
  App.setSections st
    (map (fun s => if JS.eqb (id s) target then App.withContent s value else s)
         (App.sections st)).

Definition handleHumanize (ui : Ui) (reply : Reply (option JSString)) : Ui :=
  match activeSection (appState ui), reply with
  | Some a, Resolved responseText =>
      withApp ui
              (editSection (App.activeSectionId (appState ui))
                           (textOr responseText (content a)) (appState ui))
              false
  | _, _ => withApp ui (appState ui) false
  end.

Definition handleAnonymize (now : nat -> N) (ui : Ui) (reply : Reply (option JSString))
  : Ui :=
  if App.isFullDocMode (appState ui) then
    match reply with
    | Resolved responseText =>
        withApp ui
                (App.setSections (appState ui)
                   (modularizeText now
                      (textOr responseText (App.fullText (App.sections (appState ui))))))
                false
    | Rejected => withApp ui (appState ui) false
    end
  else
    match activeSection (appState ui), reply with
    | Some a, Resolved responseText =>
        withApp ui
                (editSection (App.activeSectionId (appState ui))
                             (textOr responseText (content a)) (appState ui))
                false
    | _, _ => withApp ui (appState ui) false
    end.



Definition onApp (ui : Ui) (st : App.State) : Ui :=
  mkUi st (microEditLoading ui) (isImportModalOpen ui) (importText ui).

Section Dispatch.
Variable toLowerCase : JSString -> JSString.


End Dispatch.

End Handlers.

(** Lower-casing of the letters A-Z, a stand-in for [toLowerCase] in the
    examples. *)
Definition asciiLower (s : JSString) : JSString :=
  map (fun c => if ((65 <=? c) && (c <=? 90))%N then (c + 32)%N else c) s.

(** What every pushed section satisfies, whatever the text. *)
Definition wellFormed (s : PaperSection) : Prop := title s <> [] /\ trimmed (content s).

(** The title that a heading line opens ([headerMatch[2] || headerMatch[1]]). *)
Definition headingTitle (l : JSString) : JSString :=
  match headerMatch l with
  | Some m => headerText m
  | None => []
  end.

(* ================================================================== *)
(** * Properties *)

(** ** String primitives *)

Lemma eqb_eq (a b : JSString) : JS.eqb a b = true <-> a = b.
Proof.
  revert b; induction a as [|x a IH]; intros [|y b]; simpl; split; intro H;
    try reflexivity; try discriminate.
  - apply andb_true_iff in H as [Hx Hr]. apply N.eqb_eq in Hx.
    apply IH in Hr. congruence.
  - injection H as -> ->. rewrite N.eqb_refl. simpl. apply IH. reflexivity.
Qed.

Lemma eqb_neq (a b : JSString) : JS.eqb a b = false <-> a <> b.
Proof.
  split; intro H.
  - intro E. apply eqb_eq in E. congruence.
  - destruct (JS.eqb a b) eqn:E; [apply eqb_eq in E; contradiction | reflexivity].
Qed.

Lemma startsWith_iff (s pat : JSString) :
  startsWith s pat = true <-> exists post, s = pat ++ post.
Proof.
  revert s; induction pat as [|p pat IH]; intros s; simpl.
  - split; [intros _; exists s; reflexivity | reflexivity].
  - destruct s as [|c s].
    + split; [discriminate | intros [post H]; discriminate].
    + rewrite andb_true_iff, N.eqb_eq, IH. split.
      * intros [-> [post ->]]. exists post. reflexivity.
      * intros [post H]. injection H as -> ->. split; [reflexivity | eauto].
Qed.

(** [indexOf] returns the length of the shortest prefix after which the
    pattern occurs. *)
Lemma indexOf_Some (s pat : JSString) (n : nat) :
  indexOf s pat = Some n ->
  exists pre post, s = pre ++ pat ++ post /\ length pre = n /\
    forall pre' post', s = pre' ++ pat ++ post' -> n <= length pre'.
Proof.
  revert n; induction s as [|c s IH]; intros n; simpl.
  - destruct (startsWith [] pat) eqn:E; [|discriminate].
    intros [= <-]. apply startsWith_iff in E as [post E].
    exists [], post. repeat split; auto. intros; lia.
  - destruct (startsWith (c :: s) pat) eqn:E.
    + intros [= <-]. apply startsWith_iff in E as [post E].
      exists [], post. repeat split; auto. intros; lia.
    + destruct (indexOf s pat) as [m|] eqn:Em; [|discriminate].
      simpl. intros [= <-].
      destruct (IH m eq_refl) as (pre & post & Hs & Hl & Hmin).
      exists (c :: pre), post. subst s. repeat split; simpl; auto.
      intros pre' post' H'. destruct pre' as [|c' pre'].
      * exfalso. assert (startsWith (c :: pre ++ pat ++ post) pat = true)
          by (apply startsWith_iff; exists post'; exact H').
        congruence.
      * simpl in H'. injection H' as _ H'. apply Hmin in H'. simpl. lia.
Qed.

Lemma indexOf_None (s pat : JSString) :
  indexOf s pat = None -> forall pre post, s <> pre ++ pat ++ post.
Proof.
  induction s as [|c s IH]; simpl.
  - destruct (startsWith [] pat) eqn:E; [discriminate|]. intros _ pre post H.
    destruct pre; [|discriminate]. simpl in H.
    assert (startsWith [] pat = true) by (apply startsWith_iff; eauto). congruence.
  - destruct (startsWith (c :: s) pat) eqn:E; [discriminate|].
    destruct (indexOf s pat) eqn:Em; [discriminate|]. intros _ pre post H.
    destruct pre as [|c' pre].
    + assert (startsWith (c :: s) pat = true) by (apply startsWith_iff; eauto).
      congruence.
    + simpl in H. injection H as _ H. exact (IH eq_refl _ _ H).
Qed.

Lemma includes_false (s pat : JSString) :
  includes s pat = false <-> forall pre post, s <> pre ++ pat ++ post.
Proof.
  unfold includes. destruct (indexOf s pat) eqn:E; split; intro H; auto.
  - discriminate.
  - apply indexOf_Some in E as (pre & post & Hs & _). exfalso. exact (H _ _ Hs).
  - apply indexOf_None. exact E.
Qed.

Lemma GetSubstitution_plain (m b a t : JSString) :
  ~ In DOLLAR t -> GetSubstitution m b a t = t.
Proof.
  induction t as [|c t IH]; simpl; intros H; [reflexivity|].
  destruct (N.eqb_spec c DOLLAR) as [->|_]; [tauto|].
  f_equal. apply IH. tauto.
Qed.

(** Two decompositions around the same pattern with prefixes of one length
    coincide. *)
Lemma split_at_same_length {A : Type} (p p' q q' : list A) :
  p ++ q = p' ++ q' -> length p = length p' -> p = p' /\ q = q'.
Proof.
  revert p'; induction p as [|x p IH]; intros [|y p'] H L; try discriminate.
  - auto.
  - simpl in *. injection H as -> H. injection L as L.
    destruct (IH _ H L) as [-> ->]. auto.
Qed.

(** [replace] with a dollar-free template puts the template, verbatim, in
    place of the occurrence at the lowest offset. *)
Lemma replace_first_occurrence (pre snip post repl : JSString) :
  ~ In DOLLAR repl ->
  (forall pre' post', pre ++ snip ++ post = pre' ++ snip ++ post' ->
                      length pre <= length pre') ->
  JS.replace (pre ++ snip ++ post) snip repl = pre ++ repl ++ post.
Proof.
  intros Hd Hmin. unfold JS.replace.
  destruct (indexOf (pre ++ snip ++ post) snip) as [n|] eqn:E.
  - apply indexOf_Some in E as (p & q & Hs & Hl & Hn).
    assert (Hlen : length pre = length p).
    { apply Nat.le_antisymm; [apply (Hmin p q Hs)|].
      rewrite Hl. apply (Hn pre post eq_refl). }
    destruct (split_at_same_length _ _ _ _ Hs Hlen) as [<- Hq]. subst n.
    rewrite GetSubstitution_plain by exact Hd.
    rewrite firstn_app, firstn_all, Nat.sub_diag, app_nil_r. simpl.
    rewrite skipn_app. rewrite (skipn_all2 pre) by lia.
    replace (length pre + length snip - length pre) with (length snip) by lia.
    rewrite skipn_app, skipn_all, Nat.sub_diag. reflexivity.
  - exfalso. exact (indexOf_None _ _ E pre post eq_refl).
Qed.

Lemma includes_true_occurs (pre snip post : JSString) :
  includes (pre ++ snip ++ post) snip = true.
Proof.
  destruct (includes (pre ++ snip ++ post) snip) eqn:E; [reflexivity|].
  exfalso. exact (proj1 (includes_false _ _) E pre post eq_refl).
Qed.

Lemma truthy_true {s : JSString} : s <> [] -> truthy s = true.
Proof. destruct s; [contradiction | reflexivity]. Qed.

(* ------------------------------------------------------------------ *)
(** ** The snippet fix: [handleConfirmFix] *)

Section ConfirmFix.
Variables (st : App.State) (issue : AnalysisIssue) (snip repl : JSString).
Hypothesis Hsnip : snippet issue = Some snip.
Hypothesis Hrepl : replacement issue = Some repl.
Hypothesis Hsnip_nonempty : snip <> [].
Hypothesis Hrepl_nonempty : repl <> [].

(** Past the guard, the handler maps [fixSection] over the document. *)
Lemma handleConfirmFix_sections :
  App.sections (App.handleConfirmFix st issue)
  = map (App.fixSection snip repl) (App.sections st).
Proof.
  unfold App.handleConfirmFix. rewrite Hsnip, Hrepl.
  rewrite (truthy_true Hsnip_nonempty), (truthy_true Hrepl_nonempty).
  reflexivity.
Qed.

(** Past the guard, the issue leaves the pending list. *)
Lemma handleConfirmFix_pending :
  App.analysisResult (App.handleConfirmFix st issue)
  = option_map (App.dropIssue issue) (App.analysisResult st).
Proof.
  unfold App.handleConfirmFix. rewrite Hsnip, Hrepl.
  rewrite (truthy_true Hsnip_nonempty), (truthy_true Hrepl_nonempty).
  reflexivity.
Qed.
End ConfirmFix.

Lemma fixSection_absent (snip repl : JSString) (s : PaperSection) :
  (forall pre post, content s <> pre ++ snip ++ post) ->
  App.fixSection snip repl s = s.
Proof.
  intro H. unfold App.fixSection.
  rewrite (proj2 (includes_false _ _) H). reflexivity.
Qed.

Lemma fixSection_present (snip repl : JSString) (s : PaperSection) (pre post : JSString) :
  ~ In DOLLAR repl ->
  content s = pre ++ snip ++ post ->
  (forall pre' post', content s = pre' ++ snip ++ post' -> length pre <= length pre') ->
  App.fixSection snip repl s = App.withContent s (pre ++ repl ++ post).
Proof.
  intros Hd Hc Hmin. unfold App.fixSection. rewrite Hc in *.
  rewrite includes_true_occurs, replace_first_occurrence; auto.
Qed.

Lemma occurs_first {snip body : JSString} :
  occursIn snip body -> exists pre post, firstOccurrence body pre snip post.
Proof.
  intros (p & q & H).
  destruct (indexOf body snip) as [n|] eqn:E.
  - apply indexOf_Some in E as (pre & post & Hs & Hl & Hmin).
    exists pre, post. split; [exact Hs|]. intros. rewrite Hl. eauto.
  - exfalso. exact (indexOf_None _ _ E _ _ H).
Qed.

(** C1, as the code has it: a snippet fix with a non-empty, dollar-free
    replacement rewrites the lowest occurrence of the snippet in EVERY
    section whose content contains it (not only in the first such section);
    a section that does not contain the snippet is left unchanged, and ids,
    titles, number and order of the sections are kept. *)
Theorem confirmFix_rewrites_every_containing_section
        (st : App.State) (issue : AnalysisIssue) (snip repl : JSString) :
  snippet issue = Some snip -> replacement issue = Some repl ->
  snip <> [] -> repl <> [] -> ~ In DOLLAR repl ->
  Forall2
    (fun s s' =>
       id s' = id s /\ title s' = title s /\
       ((~ occursIn snip (content s) /\ s' = s) \/
        (exists pre post,
            firstOccurrence (content s) pre snip post /\
            content s' = pre ++ repl ++ post)))
    (App.sections st) (App.sections (App.handleConfirmFix st issue)).
Proof.
  intros Hs Hr Hsn Hrn Hd.
  rewrite (handleConfirmFix_sections st issue snip repl Hs Hr Hsn Hrn).
  induction (App.sections st) as [|s secs IH]; simpl; constructor; [|exact IH].
  destruct (includes (content s) snip) eqn:E.
  - assert (Hocc : occursIn snip (content s)).
    { unfold includes in E. destruct (indexOf (content s) snip) eqn:Ei; [|discriminate].
      apply indexOf_Some in Ei as (pre & post & H & _). exists pre, post. exact H. }
    destruct (occurs_first Hocc) as (pre & post & Hc & Hmin).
    rewrite (fixSection_present snip repl s pre post Hd Hc Hmin). simpl.
    repeat split. right. exists pre, post. repeat split; auto.
  - assert (Habs : forall pre post, content s <> pre ++ snip ++ post)
      by (apply includes_false; exact E).
    rewrite (fixSection_absent snip repl s Habs). repeat split. left. split; [|reflexivity].
    intros (pre & post & H). exact (Habs _ _ H).
Qed.

Lemma confirmFix_rewrites_every_containing_section_witness :
  Forall2
    (fun s s' =>
       id s' = id s /\ title s' = title s /\
       ((~ occursIn (lit "cat") (content s) /\ s' = s) \/
        (exists pre post,
            firstOccurrence (content s) pre (lit "cat") post /\
            content s' = pre ++ lit "dog" ++ post)))
    [mkSection (lit "s1") (lit "One") (lit "The cat sat.")]
    (App.sections
       (App.handleConfirmFix
          (docState [mkSection (lit "s1") (lit "One") (lit "The cat sat.")] [])
          (fixIssue (lit "i1") (lit "cat") (lit "dog")))).
Proof.
  apply (@confirmFix_rewrites_every_containing_section
           (docState [mkSection (lit "s1") (lit "One") (lit "The cat sat.")] [])
           (fixIssue (lit "i1") (lit "cat") (lit "dog")) (lit "cat") (lit "dog")).
  - reflexivity.
  - reflexivity.
  - discriminate.
  - discriminate.
  - vm_compute. intuition discriminate.
Defined.

(** C1 as stated fails: with the snippet in two sections, the later section
    is rewritten as well. *)
Lemma confirmFix_later_section_changed :
  let secs := [ mkSection (lit "s1") (lit "One") (lit "a cat");
                mkSection (lit "s2") (lit "Two") (lit "cat b") ] in
  let st' := App.handleConfirmFix (docState secs [])
                                  (fixIssue (lit "i1") (lit "cat") (lit "dog")) in
  includes (lit "a cat") (lit "cat") = true /\
  includes (lit "cat b") (lit "cat") = true /\
  map content (App.sections st') = [lit "a dog"; lit "dog b"] /\
  nth_error (App.sections st') 1 <> nth_error secs 1.
Proof. vm_compute. repeat split; discriminate. Qed.

(** C4, as the code has it: for a non-empty snippet that occurs in a
    section's body and a non-empty replacement free of dollar signs, the
    handler replaces exactly the occurrence at the lowest offset by the
    replacement, verbatim; the text before and after that occurrence, later
    occurrences included, is kept.  (The handler returns no [applied]
    flag.) *)
Theorem confirmFix_replaces_lowest_occurrence
        (st : App.State) (issue : AnalysisIssue) (snip repl : JSString)
        (i : nat) (s : PaperSection) (pre post : JSString) :
  snippet issue = Some snip -> replacement issue = Some repl ->
  snip <> [] -> repl <> [] -> ~ In DOLLAR repl ->
  nth_error (App.sections st) i = Some s ->
  firstOccurrence (content s) pre snip post ->
  nth_error (App.sections (App.handleConfirmFix st issue)) i
  = Some (mkSection (id s) (title s) (pre ++ repl ++ post)).
Proof.
  intros Hs Hr Hsn Hrn Hd Hi [Hc Hmin].
  rewrite (handleConfirmFix_sections st issue snip repl Hs Hr Hsn Hrn).
  rewrite nth_error_map, Hi. simpl.
  rewrite (fixSection_present snip repl s pre post Hd Hc Hmin). reflexivity.
Qed.

Lemma confirmFix_replaces_lowest_occurrence_witness :
  nth_error
    (App.sections
       (App.handleConfirmFix
          (docState [mkSection (lit "s1") (lit "One") (lit "cat and cat")] [])
          (fixIssue (lit "i1") (lit "cat") (lit "dog")))) 0
  = Some (mkSection (lit "s1") (lit "One") ([] ++ lit "dog" ++ lit " and cat")).
Proof.
  apply (confirmFix_replaces_lowest_occurrence
           (docState [mkSection (lit "s1") (lit "One") (lit "cat and cat")] [])
           (fixIssue (lit "i1") (lit "cat") (lit "dog")) (lit "cat") (lit "dog")
           0 (mkSection (lit "s1") (lit "One") (lit "cat and cat"))
           [] (lit " and cat")).
  - reflexivity.
  - reflexivity.
  - discriminate.
  - discriminate.
  - vm_compute. intuition discriminate.
  - reflexivity.
  - split; [reflexivity | intros; simpl; lia].
Defined.

(** C4 as stated fails: an empty replacement is stopped by the guard, so
    the snippet stays in the body; and a replacement holding [$&] is
    expanded, not copied. *)
Lemma confirmFix_not_always_verbatim :
  let body := lit "The cat sat." in
  let fixed := fun repl =>
    map content
        (App.sections
           (App.handleConfirmFix (docState [mkSection (lit "s1") (lit "One") body] [])
                                 (fixIssue (lit "i1") (lit "cat") repl))) in
  body = lit "The " ++ lit "cat" ++ lit " sat." /\
  fixed [] = [body] /\
  fixed [] <> [lit "The " ++ [] ++ lit " sat."] /\
  fixed (lit "$&s") = [lit "The cats sat."] /\
  fixed (lit "$&s") <> [lit "The " ++ lit "$&s" ++ lit " sat."].
Proof. vm_compute. repeat split; discriminate. Qed.

(** C3, as the code has it: when no section contains the snippet, the
    handler leaves the whole section list unchanged. *)
Theorem confirmFix_absent_snippet_keeps_sections
        (st : App.State) (issue : AnalysisIssue) :
  (forall snip s, snippet issue = Some snip -> In s (App.sections st) ->
                  ~ occursIn snip (content s)) ->
  App.sections (App.handleConfirmFix st issue) = App.sections st.
Proof.
  intros Habs. unfold App.handleConfirmFix.
  destruct (snippet issue) as [snip|] eqn:Hs; [|reflexivity].
  destruct (replacement issue) as [repl|]; [|reflexivity].
  destruct (negb (truthy snip) || negb (truthy repl)); [reflexivity|]. simpl.
  specialize (Habs snip).
  induction (App.sections st) as [|s secs IH]; simpl; [reflexivity|].
  rewrite IH by (intros s' E Hin; apply Habs; [exact E | right; exact Hin]).
  rewrite fixSection_absent; [reflexivity|].
  intros pre post H. apply (Habs s eq_refl (or_introl eq_refl)).
  exists pre, post. exact H.
Qed.

Lemma confirmFix_absent_snippet_keeps_sections_witness :
  App.sections
    (App.handleConfirmFix
       (docState [mkSection (lit "s1") (lit "One") (lit "ab");
                  mkSection (lit "s2") (lit "Two") (lit "ba")] [])
       (fixIssue (lit "i1") (lit "zz") (lit "y")))
  = [mkSection (lit "s1") (lit "One") (lit "ab");
     mkSection (lit "s2") (lit "Two") (lit "ba")].
Proof.
  apply (confirmFix_absent_snippet_keeps_sections
           (docState [mkSection (lit "s1") (lit "One") (lit "ab");
                      mkSection (lit "s2") (lit "Two") (lit "ba")] [])
           (fixIssue (lit "i1") (lit "zz") (lit "y"))).
  intros snip s [= <-] Hin (pre & post & H).
  apply (proj1 (includes_false (content s) (lit "zz"))) with (pre := pre) (post := post);
    [|exact H].
  simpl in Hin. destruct Hin as [<-|[<-|[]]]; reflexivity.
Defined.

(** C3 as stated fails: with the snippet in no section (and a non-empty
    replacement), the issue is removed from the pending list all the
    same. *)
Lemma confirmFix_absent_snippet_drops_issue :
  let secs := [ mkSection (lit "s1") (lit "One") (lit "ab");
                mkSection (lit "s2") (lit "Two") (lit "ba") ] in
  let issue := fixIssue (lit "i1") (lit "zz") (lit "y") in
  let st' := App.handleConfirmFix (docState secs [issue]) issue in
  forallb (fun s => negb (includes (content s) (lit "zz"))) secs = true /\
  App.sections st' = secs /\
  option_map issues (App.analysisResult (docState secs [issue])) = Some [issue] /\
  option_map issues (App.analysisResult st') = Some [].
Proof. vm_compute. repeat split. Qed.

(** C10: an issue whose replacement is absent or empty is stopped by the
    guard; the whole state, sections and pending issues included, is
    unchanged. *)
Theorem confirmFix_without_replacement_is_noop
        (st : App.State) (issue : AnalysisIssue) :
  replacement issue = None \/ replacement issue = Some [] ->
  App.handleConfirmFix st issue = st.
Proof.
  intros [H|H]; unfold App.handleConfirmFix; rewrite H;
    destruct (snippet issue) as [snip|]; try reflexivity.
  simpl. rewrite orb_true_r. reflexivity.
Qed.

Lemma confirmFix_without_replacement_is_noop_witness :
  let issue := fixIssue (lit "i1") (lit "cat") [] in
  let st := docState [mkSection (lit "s1") (lit "One") (lit "The cat sat.")] [issue] in
  App.handleConfirmFix st issue = st.
Proof.
  intros issue st.
  apply (confirmFix_without_replacement_is_noop st issue).
  right. reflexivity.
Defined.

(* ------------------------------------------------------------------ *)
(** ** The offset splice: [updateDocumentAtSelection] *)

Lemma substring_prefix (s : JSString) (n : Z) :
  (0 <= n <= Z.of_nat (length s))%Z ->
  substring s 0 n = firstn (Z.to_nat n) s.
Proof.
  intros H. unfold substring, clamp. simpl.
  rewrite Nat.sub_0_r, Nat.min_l by lia. reflexivity.
Qed.

Lemma substringFrom_suffix (s : JSString) (n : Z) :
  (0 <= n <= Z.of_nat (length s))%Z ->
  substringFrom s n = skipn (Z.to_nat n) s.
Proof.
  intros H. unfold substringFrom, substring, clamp.
  rewrite Nat2Z.id, Nat.min_id.
  rewrite (Nat.min_l (Z.to_nat n)) by lia.
  rewrite Nat.min_l, Nat.max_r by lia.
  rewrite <- (length_skipn (Z.to_nat n) s). apply firstn_all.
Qed.

(** C6: within [0 <= start <= end <= length body] the splice is
    [body[0:start] + replacement + body[end:]]; with [start = end] it cuts
    the body in two at [start] and puts the replacement between the two
    parts, which together are the whole body. *)
Theorem spliceAtOffsets_in_range
        (body replacement : JSString) (start end_ : Z) :
  (0 <= start)%Z -> (start <= end_)%Z -> (end_ <= Z.of_nat (length body))%Z ->
  App.spliceAtOffsets body start end_ replacement
  = firstn (Z.to_nat start) body ++ replacement ++ skipn (Z.to_nat end_) body
  /\ (start = end_ ->
      exists pre post,
        body = pre ++ post /\ length pre = Z.to_nat start /\
        App.spliceAtOffsets body start end_ replacement = pre ++ replacement ++ post).
Proof.
  intros H0 H1 H2.
  assert (E : App.spliceAtOffsets body start end_ replacement
              = firstn (Z.to_nat start) body ++ replacement ++ skipn (Z.to_nat end_) body).
  { unfold App.spliceAtOffsets.
    rewrite substring_prefix, substringFrom_suffix by lia. reflexivity. }
  split; [exact E|]. intros <-.
  exists (firstn (Z.to_nat start) body), (skipn (Z.to_nat start) body).
  split; [symmetry; apply firstn_skipn|]. split; [|exact E].
  apply firstn_length_le. lia.
Qed.

Lemma spliceAtOffsets_in_range_witness :
  App.spliceAtOffsets (lit "The cat sat.") 4 4 (lit "big ") = lit "The big cat sat."
  /\ (4%Z = 4%Z ->
      exists pre post,
        lit "The cat sat." = pre ++ post /\ length pre = Z.to_nat 4 /\
        App.spliceAtOffsets (lit "The cat sat.") 4 4 (lit "big ") = pre ++ lit "big " ++ post).
Proof.
  apply (spliceAtOffsets_in_range (lit "The cat sat.") (lit "big ") 4 4).
  - lia.
  - lia.
  - simpl. lia.
Defined.

(** C7: a splice whose selection is bound to a section id maps over the
    document: ids, titles, number and order of the sections are kept, a
    section with the target id gets its content spliced, and every section
    with another id is unchanged; [modularizeText] is not run (the result
    does not depend on the clock). *)
Theorem updateDocumentAtSelection_section_frame
        (now : nat -> N) (st : App.State) (sel : Selection) (sid : JSString)
        (newSegment : JSString) (skip : bool) :
  App.selection st = Some sel -> sectionId sel = Some sid -> sid <> [] ->
  let secs' := App.sections (App.updateDocumentAtSelection now st newSegment skip) in
  length secs' = length (App.sections st) /\
  map id secs' = map id (App.sections st) /\
  map title secs' = map title (App.sections st) /\
  Forall2
    (fun s s' =>
       (id s <> sid -> s' = s) /\
       (id s = sid ->
        s' = mkSection (id s) (title s)
               (App.spliceAtOffsets (content s) (selStart sel) (selEnd sel) newSegment)))
    (App.sections st) secs'.
Proof.
  intros Hsel Hsid Hne secs'.
  assert (E : secs' =
              map (fun s => if JS.eqb (id s) sid
                            then App.withContent s
                                   (App.spliceAtOffsets (content s) (selStart sel)
                                                        (selEnd sel) newSegment)
                            else s) (App.sections st)).
  { subst secs'. unfold App.updateDocumentAtSelection. rewrite Hsel, Hsid.
    unfold App.present, orElse. rewrite (truthy_true Hne). simpl.
    rewrite andb_false_r. destruct skip; reflexivity. }
  rewrite E. clear E secs'.
  induction (App.sections st) as [|s secs (IHl & IHi & IHt & IHf)]; simpl.
  - repeat split; constructor.
  - assert (Hs : id (if JS.eqb (id s) sid
                     then App.withContent s
                            (App.spliceAtOffsets (content s) (selStart sel)
                                                 (selEnd sel) newSegment)
                     else s) = id s
                 /\ title (if JS.eqb (id s) sid
                     then App.withContent s
                            (App.spliceAtOffsets (content s) (selStart sel)
                                                 (selEnd sel) newSegment)
                     else s) = title s)
      by (destruct (JS.eqb (id s) sid); split; reflexivity).
    destruct Hs as [Hid Ht].
    repeat split; try congruence.
    constructor; [|exact IHf].
    destruct (JS.eqb (id s) sid) eqn:Eq.
    + apply eqb_eq in Eq. split; [congruence | reflexivity].
    + apply eqb_neq in Eq. split; [reflexivity | congruence].
Qed.

Lemma updateDocumentAtSelection_section_frame_witness :
  let secs' := App.sections
                 (App.updateDocumentAtSelection (fun _ => 0%N) twoSectionState
                                                (lit "dog") false) in
  length secs' = 2 /\
  map id secs' = [lit "s1"; lit "s2"] /\
  map title secs' = [lit "One"; lit "Two"] /\
  Forall2
    (fun s s' =>
       (id s <> lit "s2" -> s' = s) /\
       (id s = lit "s2" ->
        s' = mkSection (id s) (title s)
               (App.spliceAtOffsets (content s) 4 7 (lit "dog"))))
    (App.sections twoSectionState) secs'.
Proof.
  apply (updateDocumentAtSelection_section_frame
           (fun _ => 0%N) twoSectionState (mkSelection (lit "cat") 4 7 (Some (lit "s2")))
           (lit "s2") (lit "dog") false eq_refl eq_refl).
  discriminate.
Defined.

(* ------------------------------------------------------------------ *)
(** ** The backtracking quantifiers *)

Section QuantifierFacts.
Variable R : Type.
Variable cls : codeunit -> bool.
Variable k : JSString -> JSString -> option R.

(** A failed greedy repetition means that the continuation fails after
    every admissible repetition. *)
Lemma greedy_None (s : JSString) : forall min acc,
  greedy cls min acc s k = None ->
  forall m rest, s = m ++ rest -> forallb cls m = true -> min <= length m ->
                 k (acc ++ m) rest = None.
Proof.
  induction s as [|c s IH]; intros min acc H m rest Hs Hm Hmin.
  - destruct m; [|discriminate]. simpl in Hs. subst rest.
    simpl in *. destruct min; [|lia]. rewrite app_nil_r. exact H.
  - simpl in H. destruct m as [|c' m].
    + simpl in Hs. subst rest. simpl in Hmin. destruct min; [|lia].
      rewrite app_nil_r.
      destruct (cls c); [destruct (greedy cls (pred 0) (acc ++ [c]) s k)|];
        congruence.
    + simpl in Hs. injection Hs as <- ->. simpl in Hm.
      apply andb_true_iff in Hm as [Hc Hm]. rewrite Hc in H.
      destruct (greedy cls (pred min) (acc ++ [c]) (m ++ rest) k) eqn:E;
        [destruct min; discriminate|].
      replace (acc ++ c :: m) with ((acc ++ [c]) ++ m)
        by (rewrite <- app_assoc; reflexivity).
      apply (IH _ _ E); auto. simpl in Hmin. lia.
Qed.

(** A successful greedy repetition returns what the continuation returns
    after the longest repetition it accepts. *)
Lemma greedy_first (s : JSString) : forall min acc r,
  greedy cls min acc s k = Some r ->
  exists m rest,
    s = m ++ rest /\ forallb cls m = true /\ min <= length m /\
    k (acc ++ m) rest = Some r /\
    forall m' rest', s = m' ++ rest' -> forallb cls m' = true ->
                     length m < length m' -> k (acc ++ m') rest' = None.
Proof.
  induction s as [|c s IH]; intros min acc r H.
  - simpl in H. destruct min; [|discriminate].
    exists [], []. simpl. rewrite ?app_nil_r. repeat split; auto.
    intros m' rest' Hs _ Hl. destruct m'; [simpl in Hl; lia | discriminate].
  - simpl in H.
    assert (Hstop : match min with 0 => k acc (c :: s) | S _ => None end = Some r ->
                    (cls c = true -> greedy cls (pred min) (acc ++ [c]) s k = None) ->
                    exists m rest,
                      c :: s = m ++ rest /\ forallb cls m = true /\ min <= length m /\
                      k (acc ++ m) rest = Some r /\
                      forall m' rest', c :: s = m' ++ rest' -> forallb cls m' = true ->
                        length m < length m' -> k (acc ++ m') rest' = None).
    { intros Hk Hin. destruct min; [|discriminate].
      exists [], (c :: s). simpl. rewrite ?app_nil_r. repeat split; auto.
      intros m' rest' Hs Hm Hl. destruct m' as [|c' m']; [simpl in Hl; lia|].
      simpl in Hs. injection Hs as <- ->. simpl in Hm.
      apply andb_true_iff in Hm as [Hc Hm].
      replace (acc ++ c :: m') with ((acc ++ [c]) ++ m')
        by (rewrite <- app_assoc; reflexivity).
      apply (greedy_None _ _ _ (Hin Hc)); auto. simpl. lia. }
    destruct (cls c) eqn:Hc.
    + destruct (greedy cls (pred min) (acc ++ [c]) s k) as [r'|] eqn:E.
      * injection H as ->.
        destruct (IH _ _ _ E) as (m & rest & Hs & Hm & Hmin & Hk & Hlong).
        exists (c :: m), rest. subst s. simpl. rewrite Hc, Hm.
        replace (acc ++ c :: m) with ((acc ++ [c]) ++ m)
          by (rewrite <- app_assoc; reflexivity).
        repeat split; auto; [lia|].
        intros m' rest' Hs' Hm' Hl. destruct m' as [|c' m']; [simpl in Hl; lia|].
        simpl in Hs'. injection Hs' as <- Hs'. simpl in Hm'.
        apply andb_true_iff in Hm' as [_ Hm'].
        replace (acc ++ c :: m') with ((acc ++ [c]) ++ m')
          by (rewrite <- app_assoc; reflexivity).
        apply Hlong; auto. simpl in Hl. lia.
      * apply Hstop; auto.
    + apply Hstop; auto. discriminate.
Qed.

(** The same for the lazy repetition, with the shortest repetition the
    continuation accepts. *)
Lemma lazy_None (s : JSString) : forall min acc,
  lazy cls min acc s k = None ->
  forall m rest, s = m ++ rest -> forallb cls m = true -> min <= length m ->
                 k (acc ++ m) rest = None.
Proof.
  induction s as [|c s IH]; intros min acc H m rest Hs Hm Hmin.
  - destruct m; [|discriminate]. simpl in Hs. subst rest.
    simpl in *. destruct min; [|lia]. rewrite app_nil_r.
    destruct (k acc []); congruence.
  - simpl in H. destruct m as [|c' m].
    + simpl in Hs. subst rest. simpl in Hmin. destruct min; [|lia].
      rewrite app_nil_r. destruct (k acc (c :: s)); congruence.
    + simpl in Hs. injection Hs as <- ->. simpl in Hm.
      apply andb_true_iff in Hm as [Hc Hm]. rewrite Hc in H.
      replace (acc ++ c :: m) with ((acc ++ [c]) ++ m)
        by (rewrite <- app_assoc; reflexivity).
      apply (IH (pred min) (acc ++ [c])); auto; [|simpl in Hmin; lia].
      destruct min; [destruct (k acc (c :: m ++ rest))|]; congruence.
Qed.

Lemma lazy_first (s : JSString) : forall min acc r,
  lazy cls min acc s k = Some r ->
  exists m rest,
    s = m ++ rest /\ forallb cls m = true /\ min <= length m /\
    k (acc ++ m) rest = Some r /\
    forall m' rest', s = m' ++ rest' -> min <= length m' ->
                     length m' < length m -> k (acc ++ m') rest' = None.
Proof.
  induction s as [|c s IH]; intros min acc r H.
  - simpl in H. destruct min.
    + exists [], []. simpl. rewrite ?app_nil_r. repeat split; auto.
      * destruct (k acc []); congruence.
      * intros m' rest' _ _ Hl. simpl in Hl. lia.
    + discriminate.
  - simpl in H.
    destruct (match min with 0 => k acc (c :: s) | S _ => None end) as [r'|] eqn:Estop.
    + injection H as ->. destruct min; [|discriminate].
      exists [], (c :: s). simpl. rewrite ?app_nil_r. repeat split; auto.
      intros m' rest' _ _ Hl. simpl in Hl. lia.
    + destruct (cls c) eqn:Hc; [|discriminate].
      destruct (IH _ _ _ H) as (m & rest & Hs & Hm & Hmin & Hk & Hshort).
      exists (c :: m), rest. subst s. simpl. rewrite Hc, Hm.
      replace (acc ++ c :: m) with ((acc ++ [c]) ++ m)
        by (rewrite <- app_assoc; reflexivity).
      repeat split; auto; [lia|].
      intros m' rest' Hs' Hmin' Hl. destruct m' as [|c' m'].
      * simpl in Hs'. subst rest'. rewrite app_nil_r.
        simpl in Hmin'. destruct min; [exact Estop | lia].
      * simpl in Hs'. injection Hs' as <- Hs'.
        replace (acc ++ c :: m') with ((acc ++ [c]) ++ m')
          by (rewrite <- app_assoc; reflexivity).
        apply Hshort; auto; simpl in *; lia.
Qed.
End QuantifierFacts.

Arguments greedy_None {R cls k s min acc} _ m rest _ _ _.
Arguments greedy_first {R cls k s min acc r} _.
Arguments lazy_None {R cls k s min acc} _ m rest _ _ _.
Arguments lazy_first {R cls k s min acc r} _.

Section QuantifierIntro.
Variable R : Type.
Variable cls : codeunit -> bool.
Variable k : JSString -> JSString -> option R.

Lemma greedy_intro (s : JSString) (min : nat) (acc m rest : JSString) (r : R) :
  s = m ++ rest -> forallb cls m = true -> min <= length m ->
  k (acc ++ m) rest = Some r ->
  (forall m' rest', s = m' ++ rest' -> forallb cls m' = true ->
                    length m < length m' -> k (acc ++ m') rest' = None) ->
  greedy cls min acc s k = Some r.
Proof.
  intros Hs Hm Hmin Hk Hlong.
  destruct (greedy cls min acc s k) as [r0|] eqn:E.
  - destruct (greedy_first E)
      as (m1 & rest1 & Hs1 & Hm1 & _ & Hk1 & Hlong1).
    destruct (Nat.lt_total (length m) (length m1)) as [L|[L|L]].
    + rewrite (Hlong m1 rest1 Hs1 Hm1 L) in Hk1. discriminate.
    + rewrite Hs in Hs1. destruct (split_at_same_length _ _ _ _ Hs1 L) as [<- <-].
      congruence.
    + rewrite (Hlong1 m rest Hs Hm L) in Hk. discriminate.
  - rewrite (greedy_None E m rest Hs Hm Hmin) in Hk. discriminate.
Qed.

Lemma lazy_intro (s : JSString) (min : nat) (acc m rest : JSString) (r : R) :
  s = m ++ rest -> forallb cls m = true -> min <= length m ->
  k (acc ++ m) rest = Some r ->
  (forall m' rest', s = m' ++ rest' -> min <= length m' ->
                    length m' < length m -> k (acc ++ m') rest' = None) ->
  lazy cls min acc s k = Some r.
Proof.
  intros Hs Hm Hmin Hk Hshort.
  destruct (lazy cls min acc s k) as [r0|] eqn:E.
  - destruct (lazy_first E)
      as (m1 & rest1 & Hs1 & Hm1 & Hmin1 & Hk1 & Hshort1).
    destruct (Nat.lt_total (length m) (length m1)) as [L|[L|L]].
    + rewrite (Hshort1 m rest Hs Hmin L) in Hk. discriminate.
    + rewrite Hs in Hs1. destruct (split_at_same_length _ _ _ _ Hs1 L) as [<- <-].
      congruence.
    + rewrite (Hshort m1 rest1 Hs1 Hmin1 L) in Hk1. discriminate.
  - rewrite (lazy_None E m rest Hs Hm Hmin) in Hk. discriminate.
Qed.

End QuantifierIntro.

Arguments greedy_intro {R cls k s min acc} m rest {r} _ _ _ _ _.
Arguments lazy_intro {R cls k s min acc} m rest {r} _ _ _ _ _.

(** [\s*$]: succeeds exactly on a rest made of whitespace only. *)
Lemma trailing_space_inv {R : Type} {acc s : JSString} {r r' : R} :
  greedy isWhiteSpace 0 acc s (fun _ s5 => atEnd s5 r) = Some r' ->
  forallb isWhiteSpace s = true /\ r' = r.
Proof.
  intros H. destruct (greedy_first H) as (m & rest & Hs & Hm & _ & Hk & _).
  destruct rest; [|discriminate]. rewrite app_nil_r in Hs. subst m.
  simpl in Hk. split; congruence.
Qed.

Lemma trailing_space_ok {R : Type} (acc : JSString) {s : JSString} (r : R) :
  forallb isWhiteSpace s = true ->
  greedy isWhiteSpace 0 acc s (fun _ s5 => atEnd s5 r) = Some r.
Proof.
  intros H. apply (greedy_intro s []); auto.
  - symmetry. apply app_nil_r.
  - lia.
  - intros m' rest' Hs _ Hl. exfalso.
    apply (f_equal (@length _)) in Hs. rewrite length_app in Hs. lia.
Qed.

(* ------------------------------------------------------------------ *)
(** ** The two heading patterns *)

Lemma nonempty_length {A : Type} (l : list A) : 1 <= length l -> l <> [].
Proof. destruct l; simpl; [lia | discriminate]. Qed.

Lemma hashHeading_inv (line : JSString) (m : MatchArray) :
  hashHeading line = Some m ->
  exists w1 h w2 t w3,
    line = w1 ++ h ++ w2 ++ t ++ w3 /\
    allOf isWhiteSpace w1 /\ h <> [] /\ allOf isHash h /\ allOf isWhiteSpace w2 /\
    allOf isWhiteSpace w3 /\ titleText t /\ m = mkMatch h (Some t).
Proof.
  unfold hashHeading. intros H.
  destruct (greedy_first H) as (w1 & s1 & E1 & Hw1 & _ & H1 & _).
  clear H. simpl in H1.
  destruct (greedy_first H1) as (h & s2 & E2 & Hh & Lh & H2 & _).
  clear H1. simpl in H2.
  destruct (greedy_first H2) as (w2 & s3 & E3 & Hw2 & _ & H3 & Long3).
  clear H2. simpl in H3.
  destruct (lazy_first H3) as (t & s4 & E4 & Ht & Lt & H4 & Short4).
  simpl in H4. apply trailing_space_inv in H4 as [Hw3 ->].
  subst.
  assert (Ends : length t = 1 \/
          (isWhiteSpace (hd SPACE t) = false /\ isWhiteSpace (last t SPACE) = false)).
  { destruct t as [|c t]; [simpl in Lt; lia|].
    destruct t as [|c2 t]; [left; reflexivity|]. right. split.
    - (* a leading whitespace would have been taken by the greedy [\s*] *)
      simpl. destruct (isWhiteSpace c) eqn:Hc; [exfalso | reflexivity].
      assert (F : lazy isDot 1 [] ((c2 :: t) ++ s4)
                    (fun g2 s4' => greedy isWhiteSpace 0 [] s4'
                       (fun _ s5 => atEnd s5 (mkMatch h (Some g2)))) = None).
      { apply (Long3 (w2 ++ [c]) ((c2 :: t) ++ s4)).
        - rewrite <- app_assoc. reflexivity.
        - rewrite forallb_app, Hw2. simpl. rewrite Hc. reflexivity.
        - rewrite length_app. simpl. lia. }
      simpl in Ht. apply andb_true_iff in Ht as [_ Ht].
      pose proof (lazy_None F (c2 :: t) s4 eq_refl Ht) as G.
      simpl in G. rewrite (trailing_space_ok [] _ Hw3) in G.
      specialize (G ltac:(lia)). discriminate.
    - (* a trailing whitespace would have been left out by the lazy [.+?] *)
      destruct (isWhiteSpace (last (c :: c2 :: t) SPACE)) eqn:Hl; [exfalso | reflexivity].
      assert (Hne : c :: c2 :: t <> []) by discriminate.
      destruct (exists_last Hne) as (t0 & z & Et). rewrite Et in *.
      rewrite last_last in Hl.
      assert (L2 : 2 <= length (t0 ++ [z])) by (rewrite <- Et; simpl; lia).
      rewrite length_app in L2. simpl in L2.
      assert (F : greedy isWhiteSpace 0 [] ([z] ++ s4)
                    (fun _ s5 => atEnd s5 (mkMatch h (Some ([] ++ t0)))) = None).
      { apply (Short4 t0 ([z] ++ s4)).
        - rewrite <- app_assoc. reflexivity.
        - lia.
        - rewrite length_app. simpl. lia. }
      rewrite trailing_space_ok in F; [discriminate|].
      simpl. rewrite Hl. exact Hw3. }
  exists w1, h, w2, t, s4. unfold titleText, allOf.
  repeat split; auto; apply nonempty_length; assumption.
Qed.

Lemma hashHeading_complete (line : JSString) :
  HashShape line -> hashHeading line <> None.
Proof.
  intros (w1 & h & w2 & t & w3 & -> & Hw1 & Hh & Ah & Hw2 & Ht & At & Hw3) H.
  unfold hashHeading in H.
  pose proof (greedy_None H w1 _ eq_refl Hw1 (Nat.le_0_l _)) as H1.
  simpl in H1.
  assert (Lh : 1 <= length h) by (destruct h; [contradiction | simpl; lia]).
  pose proof (greedy_None H1 h _ eq_refl Ah Lh) as H2. simpl in H2.
  pose proof (greedy_None H2 w2 _ eq_refl Hw2 (Nat.le_0_l _)) as H3.
  simpl in H3.
  assert (Lt : 1 <= length t) by (destruct t; [contradiction | simpl; lia]).
  pose proof (lazy_None H3 t _ eq_refl At Lt) as H4. simpl in H4.
  rewrite trailing_space_ok in H4 by exact Hw3. discriminate.
Qed.

Lemma isWhiteSpace_isUpperOrSpace (s : JSString) :
  allOf isWhiteSpace s -> allOf isUpperOrSpace s.
Proof.
  unfold allOf. induction s as [|c s IH]; simpl; [reflexivity|].
  intros H. apply andb_true_iff in H as [Hc Hs]. unfold isUpperOrSpace at 1.
  rewrite Hc, orb_true_r. simpl. auto.
Qed.

Lemma upperHeading_inv (line : JSString) (m : MatchArray) :
  upperHeading line = Some m ->
  UpperShape line /\ group1 m <> [] /\ group2 m = None.
Proof.
  unfold upperHeading. intros H.
  destruct (greedy_first H) as (w1 & s1 & E1 & Hw1 & _ & H1 & _).
  clear H. simpl in H1.
  destruct (greedy_first H1) as (g & s2 & E2 & Hg & Lg & H2 & _).
  clear H1. simpl in H2. apply trailing_space_inv in H2 as [Hw3 ->].
  subst. simpl. repeat split.
  - rewrite !length_app. lia.
  - unfold allOf. rewrite !forallb_app.
    rewrite (isWhiteSpace_isUpperOrSpace _ Hw1), Hg,
            (isWhiteSpace_isUpperOrSpace _ Hw3). reflexivity.
  - apply nonempty_length. lia.
Qed.

Lemma upperHeading_complete (line : JSString) :
  UpperShape line -> upperHeading line <> None.
Proof.
  intros [L A] H. unfold upperHeading in H.
  pose proof (greedy_None H [] line eq_refl eq_refl (Nat.le_0_l _)) as H1.
  simpl in H1.
  pose proof (greedy_None H1 line [] (eq_sym (app_nil_r _)) A L) as H2.
  simpl in H2. discriminate.
Qed.

Lemma isHeadingLine_shapes (line : JSString) :
  isHeadingLine line = true <-> HashShape line \/ UpperShape line.
Proof.
  unfold isHeadingLine, headerMatch. split.
  - destruct (hashHeading line) as [m|] eqn:E1.
    + intros _. left.
      destruct (hashHeading_inv _ _ E1)
        as (w1 & h & w2 & t & w3 & Hl & A1 & Hh & A2 & A3 & A4 & (Ht & A5 & _) & _).
      exists w1, h, w2, t, w3. repeat split; assumption.
    + destruct (upperHeading line) as [m|] eqn:E2; [|discriminate].
      intros _. right. exact (proj1 (upperHeading_inv _ _ E2)).
  - intros [H|H].
    + apply hashHeading_complete in H.
      destruct (hashHeading line); [reflexivity | contradiction].
    + apply upperHeading_complete in H.
      destruct (hashHeading line); [reflexivity|].
      destruct (upperHeading line); [reflexivity | contradiction].
Qed.

(** C5, as the code has it: a physical line is classified as a heading line
    if and only if (a) it is made of optional whitespace, one or more [#]
    characters, optional whitespace, a non-empty text without line
    terminators, and optional whitespace, or (b) the entire line (untrimmed)
    has at least 4 characters, each an uppercase letter A-Z or a whitespace
    character.  A heading line empties the content buffer; every other line
    is appended to it and changes nothing else. *)
Theorem heading_line_classification (line : JSString) :
  (isHeadingLine line = true <-> HashShape line \/ UpperShape line) /\
  (forall now st,
      if isHeadingLine line
      then currentContent (scanLine now st line) = []
      else scanLine now st line
           = mkScan (sections st) (currentHeader st) (currentContent st ++ [line])
                    (sectionCount st)).
Proof.
  split; [apply isHeadingLine_shapes|].
  intros now st. unfold isHeadingLine, scanLine.
  destruct (headerMatch line); reflexivity.
Qed.

(** C5 as stated fails: a line of two [#] characters, a line of four
    spaces, and the line ["  AB"] (two characters once trimmed) are heading
    lines for the code and content lines for the specification's test. *)
Lemma heading_line_spec_mismatch :
  (isHeadingLine (lit "##") = true /\ Spec.headingLine (lit "##") = false) /\
  (isHeadingLine (lit "    ") = true /\ Spec.headingLine (lit "    ") = false) /\
  (isHeadingLine (lit "  AB") = true /\ Spec.headingLine (lit "  AB") = false) /\
  option_map headerText (headerMatch (lit "##")) = Some (lit "#") /\
  option_map headerText (headerMatch (lit "    ")) = Some (lit "    ").
Proof. vm_compute. repeat split. Qed.

(* ------------------------------------------------------------------ *)
(** ** The sectionizer *)

Lemma headerMatch_text_nonempty (line : JSString) (m : MatchArray) :
  headerMatch line = Some m -> truthy (headerText m) = true.
Proof.
  unfold headerMatch, headerText.
  destruct (hashHeading line) as [m1|] eqn:E1.
  - intros [= <-].
    destruct (hashHeading_inv _ _ E1)
      as (w1 & h & w2 & t & w3 & _ & _ & _ & _ & _ & _ & (Ht & _) & ->).
    simpl. unfold orElse. rewrite (truthy_true Ht). apply truthy_true. exact Ht.
  - intros E2. destruct (upperHeading_inv _ _ E2) as (_ & Hg & ->).
    apply truthy_true. exact Hg.
Qed.

Lemma splitLines_nonempty (s : JSString) : splitLines s <> [].
Proof.
  destruct s as [|c rest]; simpl; [discriminate|].
  destruct (c =? LF)%N; [discriminate|].
  destruct (c =? CR)%N; destruct rest as [|d rest'];
    try (destruct (d =? LF)%N); try discriminate;
    match goal with |- context [match ?x with _ => _ end] => destruct x end;
    discriminate.
Qed.

Section Scan.
Variable now : nat -> N.

Lemma flush_titles (dflt : JSString) (st : Scan) :
  map title (sections (flush now dflt st))
  = map title (sections st)
    ++ (if buffered st || truthy (currentHeader st)
        then [orElse (currentHeader st) dflt] else []).
Proof.
  unfold flush, buffered.
  destruct (negb (Nat.eqb (length (currentContent st)) 0) || truthy (currentHeader st));
    simpl; [rewrite map_app; reflexivity | rewrite app_nil_r; reflexivity].
Qed.

Lemma scan_titles (lines : list JSString) : forall st,
  map title (sections (flush now (lit "Introduction")
                             (fold_left (scanLine now) lines st)))
  = map title (sections st) ++ scanTitles (currentHeader st) (buffered st) lines.
Proof.
  induction lines as [|l ls IH]; intros st.
  - apply flush_titles.
  - cbn [fold_left scanTitles]. rewrite IH. unfold scanLine.
    destruct (headerMatch l) as [m|]; cbn [sections currentHeader].
    + rewrite flush_titles, <- app_assoc. reflexivity.
    + unfold buffered at 1. cbn [currentContent]. rewrite length_app. simpl.
      replace (length (currentContent st) + 1) with (S (length (currentContent st)))
        by lia.
      reflexivity.
Qed.

Lemma scanTitles_open (lines : list JSString) : forall h b,
  truthy h = true -> scanTitles h b lines = h :: headingTitles lines.
Proof.
  induction lines as [|l ls IH]; intros h b Hh; simpl.
  - rewrite Hh, orb_true_r. unfold orElse. rewrite Hh. reflexivity.
  - destruct (headerMatch l) as [m|] eqn:E.
    + rewrite Hh, orb_true_r. unfold orElse. rewrite Hh. simpl.
      rewrite IH by exact (headerMatch_text_nonempty _ _ E). reflexivity.
    + simpl. apply IH. exact Hh.
Qed.

Lemma scanTitles_front (lines : list JSString) :
  scanTitles [] true lines
  = match headingTitles lines with
    | [] => [lit "Introduction"]
    | hs => lit "Front Matter" :: hs
    end.
Proof.
  induction lines as [|l ls IH]; simpl; [reflexivity|].
  destruct (headerMatch l) as [m|] eqn:E; simpl.
  - rewrite scanTitles_open by exact (headerMatch_text_nonempty _ _ E). reflexivity.
  - exact IH.
Qed.

Lemma scanTitles_start (lines : list JSString) :
  lines <> [] -> scanTitles [] false lines = expectedTitles lines.
Proof.
  destruct lines as [|l ls]; [contradiction|]. intros _.
  unfold expectedTitles, isHeadingLine. simpl.
  destruct (headerMatch l) as [m|] eqn:E; simpl.
  - rewrite scanTitles_open by exact (headerMatch_text_nonempty _ _ E). reflexivity.
  - rewrite scanTitles_front. destruct (headingTitles ls); reflexivity.
Qed.

Lemma flush_numbered (dflt : JSString) (st : Scan) :
  numbered now st -> numbered now (flush now dflt st).
Proof.
  intros [Hc Hi]. unfold flush.
  destruct (negb (Nat.eqb (length (currentContent st)) 0) || truthy (currentHeader st));
    [|split; assumption].
  split; simpl.
  - rewrite length_app. simpl. lia.
  - rewrite length_app, map_app, Hi. simpl.
    rewrite seq_app, map_app. simpl. rewrite Hc. reflexivity.
Qed.

Lemma scan_numbered (lines : list JSString) : forall st,
  numbered now st -> numbered now (fold_left (scanLine now) lines st).
Proof.
  induction lines as [|l ls IH]; intros st H; simpl; [exact H|].
  apply IH. unfold scanLine. destruct (headerMatch l).
  - destruct (flush_numbered (lit "Front Matter") st H) as [Hc Hi].
    split; simpl; assumption.
  - destruct H as [Hc Hi]. split; simpl; assumption.
Qed.

Lemma expectedTitles_nonempty (lines : list JSString) : expectedTitles lines <> [].
Proof.
  unfold expectedTitles. destruct (headingTitles lines); [discriminate|].
  destruct lines; [discriminate|]. destruct (isHeadingLine _); discriminate.
Qed.

(** The fallback to [INITIAL_SECTIONS] is never taken: the scan always
    pushes at least one section. *)
Lemma modularizeText_scan (text : JSString) :
  modularizeText now text
  = sections (flush now (lit "Introduction")
                    (fold_left (scanLine now) (splitLines text) scanStart))
  /\ modularizeText now text <> [].
Proof.
  unfold modularizeText.
  pose proof (scan_titles (splitLines text) scanStart) as T.
  simpl in T. unfold buffered in T. simpl in T.
  rewrite scanTitles_start in T by apply splitLines_nonempty.
  destruct (sections (flush now (lit "Introduction")
              (fold_left (scanLine now) (splitLines text) scanStart))) eqn:E.
  - exfalso. simpl in T. symmetry in T. exact (expectedTitles_nonempty _ T).
  - split; [reflexivity | discriminate].
Qed.
End Scan.

Lemma modularizeText_ids (now : nat -> N) (text : JSString) :
  map id (modularizeText now text)
  = map (freshId now) (seq 0 (length (modularizeText now text))).
Proof.
  destruct (modularizeText_scan now text) as [E _]. rewrite E.
  apply flush_numbered. apply scan_numbered. split; reflexivity.
Qed.

(** C9: [modularizeText] never returns an empty sequence; the titles are the
    headings in the order in which they were encountered (after "Front
    Matter" when the text starts with content, "Introduction" alone when
    there is no heading), and the ids carry the ordinals 0, 1, 2, ... in
    that order. *)
Theorem modularizeText_nonempty_in_heading_order (now : nat -> N) (text : JSString) :
  modularizeText now text <> [] /\
  map title (modularizeText now text) = expectedTitles (splitLines text) /\
  map id (modularizeText now text)
  = map (freshId now) (seq 0 (length (modularizeText now text))).
Proof.
  destruct (modularizeText_scan now text) as [E Hne].
  split; [exact Hne|]. split; [|apply modularizeText_ids].
  rewrite E, scan_titles. simpl. apply scanTitles_start. apply splitLines_nonempty.
Qed.

(** C2, on the code: for the empty text the scan pushes one section titled
    "Introduction" with empty content, and for four spaces one section
    titled with those spaces; no input at all yields [INITIAL_SECTIONS],
    whose first id is not an ordinal id. *)
Theorem modularizeText_never_falls_back (now : nat -> N) :
  modularizeText now [] = [mkSection (freshId now 0) (lit "Introduction") []] /\
  modularizeText now (lit "    ") = [mkSection (freshId now 0) (lit "    ") []] /\
  forall text, modularizeText now text <> INITIAL_SECTIONS.
Proof.
  split; [reflexivity|]. split; [reflexivity|].
  intros text H.
  pose proof (modularizeText_ids now text) as Hid.
  rewrite H in Hid. simpl in Hid. discriminate.
Qed.

(* ------------------------------------------------------------------ *)
(** ** Trimming *)

Lemma trimStart_decomp (l : JSString) :
  exists w, l = w ++ trimStart l /\ allOf isWhiteSpace w.
Proof.
  induction l as [|c l (w & Hl & Hw)]; simpl.
  - exists []. split; reflexivity.
  - destruct (isWhiteSpace c) eqn:Hc.
    + exists (c :: w). split; [simpl; congruence|].
      unfold allOf in *. simpl. rewrite Hc. exact Hw.
    + exists []. split; reflexivity.
Qed.

Lemma trimStart_hd (l : JSString) :
  trimStart l = [] \/ isWhiteSpace (hd SPACE (trimStart l)) = false.
Proof.
  induction l as [|c l IH]; simpl; [left; reflexivity|].
  destruct (isWhiteSpace c) eqn:Hc; [exact IH | right; exact Hc].
Qed.

Lemma trimStart_fixed (l : JSString) :
  isWhiteSpace (hd SPACE l) = false -> trimStart l = l.
Proof. destruct l as [|c l]; simpl; [reflexivity|]. intros ->. reflexivity. Qed.

Lemma trimStart_all (w : JSString) : allOf isWhiteSpace w -> trimStart w = [].
Proof.
  unfold allOf. induction w as [|c w IH]; simpl; [reflexivity|].
  intros H. apply andb_true_iff in H as [-> H]. auto.
Qed.

Lemma trimStart_app (a b : JSString) :
  trimStart (a ++ b)
  = match trimStart a with [] => trimStart b | _ :: _ => trimStart a ++ b end.
Proof.
  induction a as [|c a IH]; simpl; [reflexivity|].
  destruct (isWhiteSpace c); [exact IH | reflexivity].
Qed.

Lemma trimEnd_decomp (l : JSString) :
  exists w, l = trimEnd l ++ w /\ allOf isWhiteSpace w.
Proof.
  unfold trimEnd. destruct (trimStart_decomp (rev l)) as (w & Hl & Hw).
  exists (rev w). split.
  - rewrite <- rev_app_distr, <- Hl, rev_involutive. reflexivity.
  - unfold allOf in *. rewrite forallb_forall in *.
    intros x Hx. apply Hw. apply in_rev. exact Hx.
Qed.

Lemma last_rev_hd {A : Type} (l : list A) (d : A) : last l d = hd d (rev l).
Proof.
  induction l as [|x l IH] using rev_ind; [reflexivity|].
  rewrite last_last, rev_app_distr. reflexivity.
Qed.

Lemma trimEnd_last (l : JSString) :
  trimEnd l = [] \/ isWhiteSpace (last (trimEnd l) SPACE) = false.
Proof.
  unfold trimEnd. destruct (trimStart_hd (rev l)) as [H|H].
  - left. rewrite H. reflexivity.
  - right. rewrite last_rev_hd, rev_involutive. exact H.
Qed.

Lemma trimEnd_fixed (l : JSString) :
  isWhiteSpace (last l SPACE) = false -> trimEnd l = l.
Proof.
  intros H. unfold trimEnd. rewrite trimStart_fixed, rev_involutive; [reflexivity|].
  rewrite <- last_rev_hd. exact H.
Qed.

Lemma trimEnd_app (a b : JSString) :
  trimEnd (a ++ b)
  = match trimEnd b with [] => trimEnd a | _ :: _ => a ++ trimEnd b end.
Proof.
  unfold trimEnd. rewrite rev_app_distr, trimStart_app.
  destruct (trimStart (rev b)) as [|c t] eqn:E; [reflexivity|].
  rewrite rev_app_distr, rev_involutive.
  destruct (rev (c :: t)) eqn:E'; [|reflexivity].
  apply (f_equal (@length _)) in E'. rewrite length_rev in E'. discriminate.
Qed.

Lemma trimEnd_all (w : JSString) : allOf isWhiteSpace w -> trimEnd w = [].
Proof.
  intros H. unfold trimEnd. rewrite trimStart_all; [reflexivity|].
  unfold allOf in *. rewrite forallb_forall in *.
  intros x Hx. apply H. apply in_rev. exact Hx.
Qed.

Lemma trimEnd_keeps_hd (l : JSString) :
  isWhiteSpace (hd SPACE l) = false -> hd SPACE (trimEnd l) = hd SPACE l.
Proof.
  intros H. destruct (trimEnd_decomp l) as (w & Hl & Hw).
  destruct (trimEnd l) as [|c t] eqn:E.
  - simpl in Hl. subst w. destruct l as [|c l]; [reflexivity|].
    simpl in H. unfold allOf in Hw. simpl in Hw. rewrite H in Hw. discriminate.
  - rewrite Hl. reflexivity.
Qed.

Lemma trim_trimmed (x : JSString) : trimmed (trim x).
Proof.
  unfold trim, trimmed.
  destruct (trimEnd_last (trimStart x)) as [H|H]; [left; exact H|].
  right. split; [|exact H].
  destruct (trimStart_hd x) as [E|E].
  - rewrite E in H. discriminate.
  - rewrite trimEnd_keeps_hd; exact E.
Qed.

Lemma trim_of_trimmed (c : JSString) : trimmed c -> trim c = c.
Proof.
  intros [->|[H1 H2]]; [reflexivity|].
  unfold trim. rewrite trimStart_fixed by exact H1. apply trimEnd_fixed. exact H2.
Qed.

(** Blank lines around a trimmed content disappear again. *)
Lemma trim_padded (c : JSString) :
  trimmed c -> trim (LF :: c) = c /\ trim (LF :: c ++ [LF]) = c.
Proof.
  intros H. unfold trim. simpl. split.
  - apply (trim_of_trimmed c H).
  - destruct H as [->|[H1 H2]]; [reflexivity|].
    rewrite trimStart_app, trimStart_fixed by exact H1.
    destruct c as [|c0 c]; [discriminate|].
    change ((c0 :: c) ++ [LF]) with ((c0 :: c) ++ [LF]).
    rewrite trimEnd_app. simpl. apply trimEnd_fixed. exact H2.
Qed.

(* ------------------------------------------------------------------ *)
(** ** Lines: [split] and [join] *)

Lemma join_cons (sep l : JSString) (ls : list JSString) :
  ls <> [] -> join sep (l :: ls) = l ++ sep ++ join sep ls.
Proof. destruct ls; [contradiction | reflexivity]. Qed.

Lemma join_app (sep : JSString) (a b : list JSString) :
  a <> [] -> b <> [] -> join sep (a ++ b) = join sep a ++ sep ++ join sep b.
Proof.
  intros Ha Hb. induction a as [|l a IH]; [contradiction|].
  destruct a as [|l2 a].
  - simpl app. apply join_cons. exact Hb.
  - change ((l :: l2 :: a) ++ b) with (l :: ((l2 :: a) ++ b)).
    rewrite join_cons by discriminate.
    rewrite IH by discriminate.
    rewrite (join_cons sep l (l2 :: a)) by discriminate.
    rewrite <- !app_assoc. reflexivity.
Qed.

Lemma splitLines_single (l : JSString) : ~ In LF l -> splitLines l = [l].
Proof.
  induction l as [|c l IH]; intros H; [reflexivity|].
  assert (Hc : (c =? LF)%N = false) by (apply N.eqb_neq; intros ->; apply H; left; reflexivity).
  assert (Hl : ~ In LF l) by (intros X; apply H; right; exact X).
  simpl. rewrite Hc. specialize (IH Hl).
  destruct (c =? CR)%N; destruct l as [|d l']; try (rewrite IH; reflexivity);
    try reflexivity.
  assert (Hd : (d =? LF)%N = false)
    by (apply N.eqb_neq; intros ->; apply Hl; left; reflexivity).
  rewrite Hd, IH. reflexivity.
Qed.

Lemma splitLines_line (l s : JSString) :
  lineOK l -> splitLines (l ++ LF :: s) = l :: splitLines s.
Proof.
  induction l as [|c l IH]; intros [H L].
  - simpl. reflexivity.
  - assert (Hc : (c =? LF)%N = false)
      by (apply N.eqb_neq; intros ->; apply H; left; reflexivity).
    assert (Hl : ~ In LF l) by (intros X; apply H; right; exact X).
    destruct l as [|d l'].
    + (* the last character: it is not CR *)
      assert (Hr : (c =? CR)%N = false) by (apply N.eqb_neq; exact L).
      simpl. rewrite Hc, Hr. reflexivity.
    + assert (IH' : splitLines ((d :: l') ++ LF :: s) = (d :: l') :: splitLines s)
        by (apply IH; split; [exact Hl | exact L]).
      assert (Hd : (d =? LF)%N = false)
        by (apply N.eqb_neq; intros ->; apply Hl; left; reflexivity).
      change ((c :: d :: l') ++ LF :: s) with (c :: (d :: l') ++ LF :: s).
      cbn [splitLines]. rewrite Hc.
      change ((d :: l') ++ LF :: s) with (d :: l' ++ LF :: s) in *.
      rewrite IH'. destruct (c =? CR)%N; [lazy iota; rewrite Hd|]; reflexivity.
Qed.

Lemma splitLines_join (ls : list JSString) :
  ls <> [] -> Forall lineOK ls -> splitLines (join [LF] ls) = ls.
Proof.
  induction ls as [|l ls IH]; [contradiction|]. intros _ H.
  inversion H as [|? ? Hl Hls]; subst.
  destruct ls as [|l2 ls].
  - simpl. apply splitLines_single. exact (proj1 Hl).
  - rewrite join_cons by discriminate. simpl app.
    rewrite splitLines_line by exact Hl. f_equal. apply IH; [discriminate | exact Hls].
Qed.

Lemma splitLines_no_LF (s : JSString) : Forall (fun l => ~ In LF l) (splitLines s).
Proof.
  assert (G : forall n s, length s <= n -> Forall (fun l => ~ In LF l) (splitLines s)).
  { clear s. induction n as [|n IH]; intros s L.
    - destruct s; [|simpl in L; lia]. simpl. constructor; auto.
    - destruct s as [|c rest]; [simpl; constructor; auto|].
      simpl in L.
      assert (Cons : (c =? LF)%N = false ->
                     Forall (fun l => ~ In LF l)
                            (match splitLines rest with
                             | l :: ls => (c :: l) :: ls
                             | [] => [[c]]
                             end)).
      { intros Hc. pose proof (IH rest ltac:(lia)) as F.
        apply N.eqb_neq in Hc.
        destruct (splitLines rest) as [|l ls].
        - constructor; [|constructor]. simpl. intros [X|[]]. congruence.
        - inversion F; subst. constructor; [|assumption].
          simpl. intros [X|X]; [congruence | contradiction]. }
      cbn [splitLines]. destruct (c =? LF)%N eqn:Hc.
      + constructor; [simpl; tauto | apply IH; lia].
      + destruct (c =? CR)%N; [|destruct rest; apply Cons; reflexivity].
        destruct rest as [|d rest']; [apply Cons; reflexivity|].
        destruct (d =? LF)%N eqn:Hd; [|apply Cons; reflexivity].
        constructor; [simpl; tauto | apply IH; simpl in L; lia]. }
  exact (G (length s) s (le_n _)).
Qed.

(* ------------------------------------------------------------------ *)
(** ** Content lines under trimming *)

Lemma headerMatch_None (l : JSString) :
  headerMatch l = None <-> ~ HashShape l /\ ~ UpperShape l.
Proof.
  pose proof (isHeadingLine_shapes l) as I. unfold isHeadingLine in I.
  destruct (headerMatch l); split.
  - discriminate.
  - intros [N1 N2]. exfalso. destruct (proj1 I eq_refl); contradiction.
  - intros _. split; intros X; [assert (false = true) by (apply I; left; exact X)
                               |assert (false = true) by (apply I; right; exact X)];
      discriminate.
  - reflexivity.
Qed.

Lemma allOf_app (cls : codeunit -> bool) (a b : JSString) :
  allOf cls a -> allOf cls b -> allOf cls (a ++ b).
Proof. unfold allOf. intros Ha Hb. rewrite forallb_app, Ha, Hb. reflexivity. Qed.

Lemma HashShape_padded (w l w' : JSString) :
  allOf isWhiteSpace w -> allOf isWhiteSpace w' -> HashShape l -> HashShape (w ++ l ++ w').
Proof.
  intros Hw Hw' (w1 & h & w2 & t & w3 & -> & A1 & Hh & A2 & A3 & Ht & A4 & A5).
  exists (w ++ w1), h, w2, t, (w3 ++ w').
  repeat split; auto using allOf_app.
  rewrite <- !app_assoc. reflexivity.
Qed.

Lemma UpperShape_padded (w l w' : JSString) :
  allOf isWhiteSpace w -> allOf isWhiteSpace w' -> UpperShape l -> UpperShape (w ++ l ++ w').
Proof.
  intros Hw Hw' [L A]. split.
  - rewrite !length_app. lia.
  - auto using allOf_app, isWhiteSpace_isUpperOrSpace.
Qed.

Lemma headerMatch_None_padded (w l w' : JSString) :
  allOf isWhiteSpace w -> allOf isWhiteSpace w' ->
  headerMatch (w ++ l ++ w') = None -> headerMatch l = None.
Proof.
  intros Hw Hw' H. apply headerMatch_None in H as [N1 N2]. apply headerMatch_None.
  split; intros X; [apply N1, HashShape_padded | apply N2, UpperShape_padded]; assumption.
Qed.

Lemma contentLine_nil : contentLine [].
Proof. split; [split; [simpl; tauto | discriminate] | reflexivity]. Qed.

Lemma last_app_nonempty {A : Type} (a b : list A) (d : A) :
  b <> [] -> last (a ++ b) d = last b d.
Proof.
  intros Hb. destruct (exists_last Hb) as (b0 & z & ->).
  rewrite app_assoc, !last_last. reflexivity.
Qed.

Lemma contentLine_trimStart (l : JSString) : contentLine l -> contentLine (trimStart l).
Proof.
  intros [[Hn Hl] Hm]. destruct (trimStart_decomp l) as (w & E & Hw).
  repeat split.
  - intros X. apply Hn. rewrite E. apply in_or_app. right. exact X.
  - destruct (trimStart l) as [|c t] eqn:Et; [discriminate|].
    rewrite E in Hl. rewrite last_app_nonempty in Hl by discriminate. exact Hl.
  - apply (headerMatch_None_padded w (trimStart l) []); auto; [reflexivity|].
    rewrite app_nil_r, <- E. exact Hm.
Qed.

Lemma contentLine_trimEnd (l : JSString) : contentLine l -> contentLine (trimEnd l).
Proof.
  intros [[Hn Hl] Hm]. destruct (trimEnd_decomp l) as (w & E & Hw).
  repeat split.
  - intros X. apply Hn. rewrite E. apply in_or_app. left. exact X.
  - destruct (trimEnd_last l) as [->|H]; [discriminate|].
    intros X. rewrite X in H. discriminate.
  - apply (headerMatch_None_padded [] (trimEnd l) w); auto; [reflexivity|].
    simpl. rewrite <- E. exact Hm.
Qed.

Lemma trimStart_join (ls : list JSString) :
  Forall contentLine ls ->
  exists ls', trimStart (join [LF] ls) = join [LF] ls' /\ ls' <> [] /\
              Forall contentLine ls'.
Proof.
  induction ls as [|l ls IH]; intros H.
  - exists [[]]. repeat split; [discriminate|]. constructor; [apply contentLine_nil | constructor].
  - inversion H as [|? ? Hl Hls]; subst. destruct ls as [|l2 ls].
    + exists [trimStart l]. repeat split; [discriminate|].
      constructor; [apply contentLine_trimStart; exact Hl | constructor].
    + rewrite join_cons by discriminate. rewrite trimStart_app.
      destruct (trimStart l) as [|c t] eqn:E.
      * simpl app. simpl trimStart at 1. apply IH. exact Hls.
      * exists ((c :: t) :: l2 :: ls).
        split; [symmetry; apply join_cons; discriminate|]. split; [discriminate|].
        constructor; [rewrite <- E; apply contentLine_trimStart; exact Hl | exact Hls].
Qed.

Lemma trimEnd_join (ls : list JSString) :
  Forall contentLine ls ->
  exists ls', trimEnd (join [LF] ls) = join [LF] ls' /\ ls' <> [] /\
              Forall contentLine ls'.
Proof.
  induction ls as [|l ls IH] using rev_ind; intros H.
  - exists [[]]. repeat split; [discriminate|]. constructor; [apply contentLine_nil | constructor].
  - apply Forall_app in H as [Hls Hl]. inversion Hl as [|? ? Hl' _]; subst.
    destruct ls as [|l0 ls].
    + exists [trimEnd l]. repeat split; [discriminate|].
      constructor; [apply contentLine_trimEnd; exact Hl' | constructor].
    + rewrite join_app by discriminate. simpl (join [LF] [l]).
      rewrite trimEnd_app, trimEnd_app.
      destruct (trimEnd l) as [|c t] eqn:E.
      * replace (trimEnd [LF]) with (@nil codeunit) by reflexivity.
        apply IH. exact Hls.
      * exists ((l0 :: ls) ++ [c :: t]).
        split; [symmetry; apply (join_app [LF] (l0 :: ls) [c :: t]); discriminate|]. split.
        -- intros X. apply app_eq_nil in X as [X _]. discriminate.
        -- apply Forall_app. split; [exact Hls|].
           constructor; [rewrite <- E; apply contentLine_trimEnd; exact Hl' | constructor].
Qed.

Lemma contentLine_lineOK (ls : list JSString) :
  Forall contentLine ls -> Forall lineOK ls.
Proof. apply Forall_impl. intros l [H _]. exact H. Qed.

Lemma trim_join_good (ls : list JSString) :
  Forall contentLine ls -> goodContent (trim (join [LF] ls)).
Proof.
  intros H. split; [apply trim_trimmed|]. unfold trim.
  destruct (trimStart_join ls H) as (ls1 & E1 & _ & H1). rewrite E1.
  destruct (trimEnd_join ls1 H1) as (ls2 & E2 & N2 & H2). rewrite E2.
  rewrite splitLines_join by auto using contentLine_lineOK. split; [reflexivity | exact H2].
Qed.

(* ------------------------------------------------------------------ *)
(** ** A captured title is read back from its [# title] line *)

Lemma forallb_last {A : Type} (p : A -> bool) (l : list A) (d : A) :
  forallb p l = true -> l <> [] -> p (last l d) = true.
Proof.
  intros H Hne. destruct (exists_last Hne) as (l0 & z & ->).
  rewrite last_last. rewrite forallb_app in H.
  apply andb_true_iff in H as [_ H]. simpl in H. rewrite andb_true_r in H. exact H.
Qed.

Lemma isDot_no_terminator (t : JSString) (c : codeunit) :
  allOf isDot t -> isLineTerminator c = true -> ~ In c t.
Proof.
  unfold allOf. rewrite forallb_forall. intros H Hc X.
  apply H in X. unfold isDot in X. rewrite Hc in X. discriminate.
Qed.

Lemma titleText_rematch (t : JSString) :
  titleText t -> hashHeading (lit "# " ++ t) = Some (mkMatch [HASH] (Some t)).
Proof.
  intros (Hne & Hdot & Hends).
  change (lit "# " ++ t) with (HASH :: SPACE :: t).
  unfold hashHeading.
  (* [^\s*] takes nothing *)
  apply (greedy_intro [] (HASH :: SPACE :: t)); [reflexivity | reflexivity | lia | |].
  2:{ intros m' rest' Hs Hm Hl. exfalso.
      destruct m' as [|c m']; [simpl in Hl; lia|].
      simpl in Hs. injection Hs as <- _. simpl in Hm. discriminate. }
  (* [(#+)] takes the one hash *)
  cbn beta. apply (greedy_intro [HASH] (SPACE :: t)); [reflexivity | reflexivity | simpl; lia | |].
  2:{ intros m' rest' Hs Hm Hl. exfalso.
      destruct m' as [|c [|c2 m']]; try (simpl in Hl; lia).
      simpl in Hs. injection Hs as <- <- _. simpl in Hm. discriminate. }
  cbn beta. simpl app.
  assert (Ltn : 1 <= length t) by (destruct t; [contradiction | simpl; lia]).
  assert (Whole : forall g1,
             lazy isDot 1 [] t
               (fun g2 s4 => greedy isWhiteSpace 0 [] s4
                               (fun _ s5 => atEnd s5 (mkMatch g1 (Some g2))))
             = Some (mkMatch g1 (Some t))).
  { intros g1.
    destruct Hends as [L1|[Hhd Hlast]].
    - destruct t as [|c [|c2 t']]; try discriminate.
      unfold allOf in Hdot. simpl in Hdot. rewrite andb_true_r in Hdot.
      simpl. rewrite Hdot. reflexivity.
    - apply (lazy_intro t []); auto using app_nil_r.
      + symmetry. apply app_nil_r.
      + intros m' rest' Hs Hmin Hl. cbn beta.
        destruct (greedy isWhiteSpace 0 [] rest'
                    (fun _ s5 => atEnd s5 (mkMatch g1 (Some ([] ++ m'))))) eqn:G;
          [exfalso | exact G].
        apply trailing_space_inv in G as [G _].
        assert (Hr : rest' <> []).
        { intros ->. rewrite app_nil_r in Hs. subst m'. lia. }
        apply forallb_last with (d := SPACE) in G; [|exact Hr].
        rewrite Hs, last_app_nonempty in Hlast by exact Hr. congruence. }
  destruct (isWhiteSpace (hd SPACE t)) eqn:Hhd.
  - (* the title is one whitespace character: [\s*] gives it back *)
    destruct Hends as [L1|[Hhd' _]]; [|congruence].
    destruct t as [|c [|c2 t']]; try discriminate. simpl in Hhd.
    unfold allOf in Hdot. simpl in Hdot. rewrite andb_true_r in Hdot.
    simpl. rewrite Hhd, Hdot. reflexivity.
  - (* the title has no whitespace in front: [\s*] takes the one space *)
    apply (greedy_intro [SPACE] t); [reflexivity | reflexivity | lia | apply Whole |].
    intros m' rest' Hs Hm Hl. exfalso.
    destruct m' as [|c1 [|c2 m']]; try (simpl in Hl; lia).
    simpl in Hs. injection Hs as <- Hs. subst t. simpl in Hhd, Hm.
    rewrite Hhd in Hm. discriminate.
Qed.

Lemma titleText_lineOK (t : JSString) : titleText t -> lineOK (lit "# " ++ t).
Proof.
  intros (Hne & Hdot & _). split.
  - intros X. apply in_app_or in X as [X|X].
    + simpl in X. unfold LF in X. intuition discriminate.
    + exact (isDot_no_terminator t LF Hdot eq_refl X).
  - rewrite last_app_nonempty by exact Hne. intros X.
    pose proof (forallb_last isDot t SPACE Hdot Hne) as D.
    rewrite X in D. discriminate.
Qed.

Lemma titleText_defaults : titleText (lit "Front Matter") /\ titleText (lit "Introduction").
Proof.
  split; (split; [discriminate|]; split; [reflexivity|]; right; split; reflexivity).
Qed.

(** Scanning the line [# title] opens a section with that title. *)
Lemma headerMatch_title_line (t : JSString) :
  titleText t ->
  exists m, headerMatch (lit "# " ++ t) = Some m /\ headerText m = t.
Proof.
  intros H. exists (mkMatch [HASH] (Some t)). unfold headerMatch.
  rewrite (titleText_rematch t H). split; [reflexivity|].
  unfold headerText, orElse. simpl.
  destruct H as (Hne & _). rewrite (truthy_true Hne). reflexivity.
Qed.

(* ------------------------------------------------------------------ *)
(** ** What the first scan produces *)

Section FirstScan.
Variable now : nat -> N.

Lemma flush_inv (dflt : JSString) (st : Scan) :
  titleText dflt -> scanInv st -> scanInv (flush now dflt st).
Proof.
  intros Hd (Hs & Hh & Hc). unfold flush.
  destruct (negb (Nat.eqb (length (currentContent st)) 0) || truthy (currentHeader st));
    [|repeat split; assumption].
  repeat split; simpl; auto.
  apply Forall_app. split; [exact Hs|]. constructor; [|constructor].
  split; simpl.
  - unfold orElse. destruct Hh as [->|Ht]; [exact Hd|].
    destruct (truthy (currentHeader st)); assumption.
  - apply trim_join_good. exact Hc.
Qed.

Lemma scanLine_inv (st : Scan) (line : JSString) :
  ~ In LF line -> plainLine line -> scanInv st -> scanInv (scanLine now st line).
Proof.
  intros Hlf [Hu Hcr] Inv. unfold scanLine.
  destruct (headerMatch line) as [m|] eqn:E.
  - destruct (flush_inv (lit "Front Matter") st (proj1 titleText_defaults) Inv)
      as (Hs & _ & _).
    repeat split; simpl; auto. right.
    unfold headerMatch in E. destruct (hashHeading line) as [m1|] eqn:E1.
    + injection E as <-.
      destruct (hashHeading_inv _ _ E1)
        as (w1 & h & w2 & t & w3 & _ & _ & _ & _ & _ & _ & Ht & ->).
      unfold headerText, orElse. simpl.
      rewrite (truthy_true (proj1 Ht)). exact Ht.
    + congruence.
  - destruct Inv as (Hs & Hh & Hc). repeat split; simpl; auto.
    apply Forall_app. split; [exact Hc|]. constructor; [|constructor].
    split; [split; assumption | exact E].
Qed.

Lemma scan_inv (lines : list JSString) : forall st,
  Forall (fun l => ~ In LF l) lines -> Forall plainLine lines ->
  scanInv st -> scanInv (fold_left (scanLine now) lines st).
Proof.
  induction lines as [|l ls IH]; intros st H1 H2 Inv; simpl; [exact Inv|].
  inversion H1; inversion H2; subst. apply IH; auto using scanLine_inv.
Qed.

Lemma modularizeText_good (text : JSString) :
  Forall plainLine (splitLines text) -> Forall goodSection (modularizeText now text).
Proof.
  intros H. destruct (modularizeText_scan now text) as [E _]. rewrite E.
  apply flush_inv; [exact (proj2 titleText_defaults)|].
  apply scan_inv; [apply splitLines_no_LF | exact H|].
  repeat split; simpl; auto.
Qed.
End FirstScan.

(* ------------------------------------------------------------------ *)
(** ** Scanning the full-document view *)

Lemma join_blockLines (s : PaperSection) :
  goodSection s -> join [LF] (blockLines s) = App.block s.
Proof.
  intros (_ & _ & Hj & _). unfold blockLines, App.block.
  rewrite join_cons by discriminate.
  rewrite join_cons by apply splitLines_nonempty.
  rewrite Hj. rewrite <- !app_assoc. reflexivity.
Qed.

Lemma docLines_nonempty (secs : list PaperSection) : secs <> [] -> docLines secs <> [].
Proof. destruct secs; [contradiction | discriminate]. Qed.

Lemma join_docLines (secs : list PaperSection) :
  Forall goodSection secs -> join [LF] (docLines secs) = App.fullText secs.
Proof.
  induction secs as [|s rest IH]; intros H; [reflexivity|].
  inversion H as [|? ? Hs Hrest]; subst. unfold App.fullText. cbn [docLines map].
  destruct rest as [|s2 rest'].
  - rewrite app_nil_r. simpl join at 2. apply join_blockLines. exact Hs.
  - rewrite join_app; [|discriminate|discriminate].
    rewrite join_cons by (apply docLines_nonempty; discriminate).
    rewrite (join_cons [LF; LF] (App.block s)) by discriminate.
    rewrite join_blockLines by exact Hs. rewrite IH by exact Hrest.
    unfold App.fullText. reflexivity.
Qed.

Lemma blockLines_ok (s : PaperSection) : goodSection s -> Forall lineOK (blockLines s).
Proof.
  intros (Ht & _ & _ & Hc). constructor; [apply titleText_lineOK; exact Ht|].
  constructor; [exact (proj1 contentLine_nil)|]. apply contentLine_lineOK. exact Hc.
Qed.

Lemma docLines_ok (secs : list PaperSection) :
  Forall goodSection secs -> Forall lineOK (docLines secs).
Proof.
  induction secs as [|s rest IH]; intros H; [constructor|].
  inversion H as [|? ? Hs Hrest]; subst. cbn [docLines].
  apply Forall_app. split; [apply blockLines_ok; exact Hs|].
  destruct rest; [constructor|].
  constructor; [exact (proj1 contentLine_nil) | apply IH; exact Hrest].
Qed.

Lemma splitLines_fullText (secs : list PaperSection) :
  secs <> [] -> Forall goodSection secs ->
  splitLines (App.fullText secs) = docLines secs.
Proof.
  intros Hne H. rewrite <- join_docLines by exact H.
  apply splitLines_join; [apply docLines_nonempty; exact Hne | apply docLines_ok; exact H].
Qed.

Section SecondScan.
Variable now : nat -> N.

Lemma scan_content_lines (ls : list JSString) : forall st,
  Forall (fun l => headerMatch l = None) ls ->
  fold_left (scanLine now) ls st
  = mkScan (sections st) (currentHeader st) (currentContent st ++ ls) (sectionCount st).
Proof.
  induction ls as [|l ls IH]; intros st H; simpl.
  - rewrite app_nil_r. destruct st; reflexivity.
  - inversion H as [|? ? Hl Hls]; subst. rewrite IH by exact Hls.
    unfold scanLine. rewrite Hl. simpl. rewrite <- app_assoc. reflexivity.
Qed.

Lemma contentLine_not_heading (ls : list JSString) :
  Forall contentLine ls -> Forall (fun l => headerMatch l = None) ls.
Proof. apply Forall_impl. intros l [_ H]. exact H. Qed.

(** A block opens a section: what was open before is pushed, and the
    buffer holds the blank line and the content lines. *)
Lemma scan_blockLines (s : PaperSection) (st : Scan) :
  goodSection s ->
  fold_left (scanLine now) (blockLines s) st
  = mkScan (sections (flush now (lit "Front Matter") st)) (title s)
           ([] :: splitLines (content s))
           (sectionCount (flush now (lit "Front Matter") st)).
Proof.
  intros (Ht & _ & _ & Hc). unfold blockLines.
  change (fold_left (scanLine now)
            ((lit "# " ++ title s) :: [] :: splitLines (content s)) st)
    with (fold_left (scanLine now) ([] :: splitLines (content s))
            (scanLine now st (lit "# " ++ title s))).
  destruct (headerMatch_title_line (title s) Ht) as (m & Hm & Htxt).
  assert (E0 : scanLine now st (lit "# " ++ title s)
               = mkScan (sections (flush now (lit "Front Matter") st)) (title s) []
                        (sectionCount (flush now (lit "Front Matter") st)))
    by (unfold scanLine; rewrite Hm, Htxt; reflexivity).
  rewrite E0.
  rewrite (scan_content_lines ([] :: splitLines (content s))).
  - reflexivity.
  - constructor; [reflexivity | apply contentLine_not_heading; exact Hc].
Qed.

Lemma flush_open (dflt : JSString) (st : Scan) (s : PaperSection) (pad : list JSString) :
  goodSection s ->
  currentHeader st = title s ->
  currentContent st = ([] :: splitLines (content s)) ++ pad ->
  pad = [] \/ pad = [[]] ->
  map titled (sections (flush now dflt st)) = map titled (sections st) ++ [titled s].
Proof.
  intros (Ht & Htr & Hj & _) Hh Hc Hpad.
  assert (J : join [LF] ([] :: splitLines (content s)) = LF :: content s).
  { rewrite join_cons by apply splitLines_nonempty. rewrite Hj. reflexivity. }
  assert (T : trim (join [LF] (([] :: splitLines (content s)) ++ pad)) = content s).
  { destruct Hpad as [->| ->].
    - rewrite app_nil_r, J. apply (trim_padded (content s) Htr).
    - rewrite join_app by discriminate. rewrite J.
      change (join [LF] [[]]) with (@nil codeunit). rewrite app_nil_r.
      apply (trim_padded (content s) Htr). }
  unfold flush. rewrite Hh, Hc, T.
  rewrite (truthy_true (proj1 Ht)), orb_true_r. cbn [sections].
  rewrite map_app. f_equal. cbn [map]. unfold titled. cbn [title content].
  unfold orElse. rewrite (truthy_true (proj1 Ht)). reflexivity.
Qed.

(** With section [s] open, the rest of the document is scanned into the
    rest of the sections. *)
Lemma scan_rest (rest : list PaperSection) : forall (s : PaperSection) (st : Scan),
  goodSection s -> Forall goodSection rest ->
  currentHeader st = title s ->
  currentContent st = [] :: splitLines (content s) ->
  map titled
      (sections
         (flush now (lit "Introduction")
                (fold_left (scanLine now)
                           (match rest with [] => [] | _ :: _ => [] :: docLines rest end)
                           st)))
  = map titled (sections st) ++ map titled (s :: rest).
Proof.
  induction rest as [|s2 rest IH]; intros s st Hs Hrest Hh Hc.
  - simpl fold_left. apply (flush_open (lit "Introduction") st s []); auto.
    rewrite app_nil_r. exact Hc.
  - inversion Hrest as [|? ? Hs2 Hrest']; subst.
    cbn [docLines fold_left]. rewrite fold_left_app.
    rewrite scan_blockLines by exact Hs2.
    set (st1 := scanLine now st []).
    assert (E1 : st1 = mkScan (sections st) (currentHeader st)
                              (currentContent st ++ [[]]) (sectionCount st))
      by reflexivity.
    rewrite (IH s2) by (auto; reflexivity).
    cbn [sections]. rewrite (flush_open (lit "Front Matter") st1 s [[]] Hs).
    + rewrite E1. cbn [sections]. rewrite <- app_assoc. reflexivity.
    + rewrite E1. exact Hh.
    + rewrite E1. cbn [currentContent]. rewrite Hc. reflexivity.
    + right. reflexivity.
Qed.

(** Scanning the full-document view of good sections gives their titles
    and contents back. *)
Lemma modularizeText_fullText (secs : list PaperSection) :
  secs <> [] -> Forall goodSection secs ->
  map titled (modularizeText now (App.fullText secs)) = map titled secs.
Proof.
  intros Hne H. destruct (modularizeText_scan now (App.fullText secs)) as [E _].
  rewrite E, splitLines_fullText by assumption.
  destruct secs as [|s rest]; [contradiction|].
  inversion H as [|? ? Hs Hrest]; subst.
  cbn [docLines]. rewrite fold_left_app, scan_blockLines by exact Hs.
  rewrite (scan_rest rest s) by (auto; reflexivity).
  reflexivity.
Qed.
End SecondScan.

(** C8, as the code has it: for a text in which no line matches the
    uppercase pattern and no physical line ends with a carriage return,
    sectionizing, serializing as the full-document view and sectionizing
    again gives the same titles and the same contents as the first run. *)
Theorem modularizeText_roundtrip (now now' : nat -> N) (text : JSString) :
  Forall plainLine (splitLines text) ->
  map titled (modularizeText now' (App.fullText (modularizeText now text)))
  = map titled (modularizeText now text).
Proof.
  intros H. apply modularizeText_fullText.
  - exact (proj2 (modularizeText_scan now text)).
  - apply modularizeText_good. exact H.
Qed.

Lemma modularizeText_roundtrip_witness :
  let text := lit "# Abstract" ++ [LF; LF] ++ lit "Hello world." ++ [LF] ++
              lit "# Methods" ++ [LF] ++ lit "We did X." in
  map titled (modularizeText (fun _ => 7%N)
                             (App.fullText (modularizeText (fun _ => 5%N) text)))
  = map titled (modularizeText (fun _ => 5%N) text).
Proof.
  intros text.
  apply (modularizeText_roundtrip (fun _ => 5%N) (fun _ => 7%N) text).
  vm_compute splitLines.
  repeat (constructor; [split; [vm_compute; reflexivity | vm_compute; discriminate]|]).
  constructor.
Defined.

(** C8 as stated fails: a content line that ends with a carriage return
    (the text [abc CR CR LF next]) keeps its CR in the first run, where it
    is joined to the next line by LF; the second run then cuts at CR LF, and
    the content comes back without the CR. *)
Lemma modularizeText_roundtrip_loses_CR :
  let text := lit "abc" ++ [CR; CR; LF] ++ lit "next" in
  let first := modularizeText (fun _ => 5%N) text in
  let second := modularizeText (fun _ => 7%N) (App.fullText first) in
  forallb (fun l => match headerMatch l with None => true | Some _ => false end)
          (splitLines text) = true /\
  map titled first = [(lit "Introduction", lit "abc" ++ [CR; LF] ++ lit "next")] /\
  map titled second = [(lit "Introduction", lit "abc" ++ [LF] ++ lit "next")] /\
  map titled second <> map titled first.
Proof. vm_compute. repeat split. discriminate. Qed.

Example modularizeText_spec_example :
  map titled
      (modularizeText (fun _ => 0%N)
         (lit "# Abstract" ++ [LF; LF] ++ lit "Hello world." ++ [LF] ++
          lit "# Methods" ++ [LF] ++ lit "We did X."))
  = [ (lit "Abstract", lit "Hello world."); (lit "Methods", lit "We did X.") ].
Proof. vm_compute. reflexivity. Qed.

(* ================================================================== *)
(** * Further properties of the sectionizer *)

Section PushedSections.
Variable now : nat -> N.

Lemma orElse_nonempty (a b : JSString) : b <> [] -> orElse a b <> [].
Proof. unfold orElse. destruct a; simpl; [auto | discriminate]. Qed.

Lemma flush_wellFormed (dflt : JSString) (st : Scan) :
  dflt <> [] -> Forall wellFormed (sections st) ->
  Forall wellFormed (sections (flush now dflt st)).
Proof.
  intros Hd H. unfold flush.
  destruct (negb (Nat.eqb (length (currentContent st)) 0) || truthy (currentHeader st));
    [|exact H].
  simpl. apply Forall_app. split; [exact H|]. constructor; [|constructor].
  split; simpl; [apply orElse_nonempty; exact Hd | apply trim_trimmed].
Qed.

Lemma scan_wellFormed (lines : list JSString) : forall st,
  Forall wellFormed (sections st) ->
  Forall wellFormed (sections (fold_left (scanLine now) lines st)).
Proof.
  induction lines as [|l ls IH]; intros st H; simpl; [exact H|].
  apply IH. unfold scanLine. destruct (headerMatch l); simpl; [|exact H].
  apply flush_wellFormed; [discriminate | exact H].
Qed.

Lemma modularizeText_wellFormed (text : JSString) :
  Forall (fun s => title s <> [] /\ trimmed (content s)) (modularizeText now text).
Proof.
  destruct (modularizeText_scan now text) as [E _]. rewrite E.
  apply flush_wellFormed; [discriminate|]. apply scan_wellFormed. constructor.
Qed.

(** X1: every section returned by [modularizeText], for every text, has a
    non-empty title and a content without whitespace at either end. *)
Theorem modularizeText_sections_well_formed (text : JSString) :
  Forall (fun s => title s <> [] /\ trimmed (content s)) (modularizeText now text).
Proof. exact (modularizeText_wellFormed text). Qed.
End PushedSections.

(* ------------------------------------------------------------------ *)
(** ** Identifiers *)

Lemma lit_inj (a b : string) : lit a = lit b -> a = b.
Proof.
  unfold lit. intros H.
  rewrite <- (string_of_list_ascii_of_string a), <- (string_of_list_ascii_of_string b).
  f_equal. revert H. generalize (list_ascii_of_string a) (list_ascii_of_string b).
  induction l as [|x l IH]; intros [|y l']; simpl; intros H; try discriminate; auto.
  injection H as Hx Hl. f_equal; [|auto].
  rewrite <- (ascii_N_embedding x), <- (ascii_N_embedding y), Hx. reflexivity.
Qed.

Lemma decimal_digits (d : Decimal.uint) (c : codeunit) :
  In c (lit (NilEmpty.string_of_uint d)) -> (48 <= c <= 57)%N.
Proof.
  unfold lit. induction d; simpl; try tauto;
    (intros [<-|H]; [vm_compute; split; discriminate | auto]).
Qed.

Lemma ofNumber_inj (n m : N) : ofNumber n = ofNumber m -> n = m.
Proof.
  unfold ofNumber. intros H. apply lit_inj in H.
  apply Unsigned.to_uint_inj.
  pose proof (NilEmpty.usu (N.to_uint n)) as A.
  pose proof (NilEmpty.usu (N.to_uint m)) as B.
  rewrite H in A. congruence.
Qed.

Lemma ofNumber_no_dash (n : N) : ~ In 45%N (ofNumber n).
Proof.
  intros H. apply decimal_digits in H. lia.
Qed.

Lemma split_at_separator {A : Type} (x : A) (a a' b b' : list A) :
  ~ In x a -> ~ In x a' -> a ++ x :: b = a' ++ x :: b' -> a = a'.
Proof.
  revert a'. induction a as [|y a IH]; intros [|y' a'] Ha Ha' H; simpl in *.
  - reflexivity.
  - injection H as -> _. tauto.
  - injection H as -> _. tauto.
  - injection H as -> H. f_equal. apply IH; tauto.
Qed.

Lemma freshId_inj (now : nat -> N) (k k' : nat) :
  freshId now k = freshId now k' -> k = k'.
Proof.
  unfold freshId. intros H. apply app_inv_head in H.
  change (lit "-") with [45%N] in H. simpl in H.
  apply split_at_separator in H; auto using ofNumber_no_dash.
  apply ofNumber_inj in H. lia.
Qed.

Lemma NoDup_map_injective {A B : Type} (f : A -> B) (l : list A) :
  (forall x y, f x = f y -> x = y) -> NoDup l -> NoDup (map f l).
Proof.
  intros Hf H. induction H as [|x l Hx Hl IH]; simpl; constructor; [|exact IH].
  intros X. apply in_map_iff in X as (y & E & Hy). apply Hf in E. subst. contradiction.
Qed.

Lemma modularizeText_NoDup_ids (now : nat -> N) (text : JSString) :
  NoDup (map id (modularizeText now text)).
Proof.
  rewrite modularizeText_ids. apply NoDup_map_injective.
  - apply freshId_inj.
  - apply seq_NoDup.
Qed.

(** X2: within one call of [modularizeText] the ids are pairwise different,
    whatever the clock returns. *)
Theorem modularizeText_ids_unique (now : nat -> N) (text : JSString) :
  NoDup (map id (modularizeText now text)).
Proof. exact (modularizeText_NoDup_ids now text). Qed.

(* ------------------------------------------------------------------ *)
(** ** A text without headings *)

Lemma join_splitLines (text : JSString) :
  ~ occursIn [CR; LF] text -> join [LF] (splitLines text) = text.
Proof.
  induction text as [|c rest IH]; intros H; [reflexivity|].
  assert (Hrest : ~ occursIn [CR; LF] rest).
  { intros (p & q & E). apply H. exists (c :: p), q. rewrite E. reflexivity. }
  specialize (IH Hrest).
  assert (Plain : join [LF] (match splitLines rest with
                             | l :: ls => (c :: l) :: ls
                             | [] => [[c]]
                             end) = c :: rest).
  { destruct (splitLines rest) as [|l ls] eqn:E.
    - exfalso. exact (splitLines_nonempty rest E).
    - destruct ls as [|l2 ls]; simpl in *; rewrite <- IH; reflexivity. }
  cbn [splitLines]. destruct (c =? LF)%N eqn:Hc.
  - apply N.eqb_eq in Hc. subst c.
    rewrite join_cons by apply splitLines_nonempty. rewrite IH. reflexivity.
  - destruct (c =? CR)%N eqn:Hr; [|destruct rest; exact Plain].
    destruct rest as [|d rest']; [exact Plain|].
    destruct (d =? LF)%N eqn:Hd; [|exact Plain].
    exfalso. apply N.eqb_eq in Hr, Hd. subst. apply H. exists [], rest'. reflexivity.
Qed.

(** X3: a text none of whose lines is a heading line becomes exactly one
    section, titled "Introduction", whose content is the lines joined with
    LF and trimmed; when the text holds no CR LF pair, that content is the
    trimmed text itself. *)
Theorem modularizeText_without_headings (now : nat -> N) (text : JSString) :
  Forall (fun l => isHeadingLine l = false) (splitLines text) ->
  modularizeText now text
  = [mkSection (freshId now 0) (lit "Introduction")
               (trim (join [LF] (splitLines text)))]
  /\ (~ occursIn [CR; LF] text ->
      modularizeText now text
      = [mkSection (freshId now 0) (lit "Introduction") (trim text)]).
Proof.
  intros H.
  assert (E : modularizeText now text
              = [mkSection (freshId now 0) (lit "Introduction")
                           (trim (join [LF] (splitLines text)))]).
  { destruct (modularizeText_scan now text) as [E _]. rewrite E.
    rewrite scan_content_lines.
    - unfold flush. cbn [currentContent currentHeader sections sectionCount scanStart].
      rewrite app_nil_l.
      destruct (splitLines text) eqn:El; [exfalso; exact (splitLines_nonempty text El)|].
      reflexivity.
    - revert H. apply Forall_impl. intros l. unfold isHeadingLine.
      destruct (headerMatch l); [discriminate | reflexivity]. }
  split; [exact E|]. intros Hcr. rewrite E, join_splitLines by exact Hcr. reflexivity.
Qed.

Lemma modularizeText_without_headings_witness :
  modularizeText (fun _ => 3%N) (lit "  plain prose only ")
  = [mkSection (freshId (fun _ => 3%N) 0) (lit "Introduction")
               (trim (join [LF] (splitLines (lit "  plain prose only "))))]
  /\ (~ occursIn [CR; LF] (lit "  plain prose only ") ->
      modularizeText (fun _ => 3%N) (lit "  plain prose only ")
      = [mkSection (freshId (fun _ => 3%N) 0) (lit "Introduction")
                   (trim (lit "  plain prose only "))]).
Proof.
  apply (modularizeText_without_headings (fun _ => 3%N) (lit "  plain prose only ")).
  vm_compute. repeat constructor.
Defined.

(* ================================================================== *)
(** * Selecting, splicing and citing *)

Lemma substring_spec (s : JSString) (start end_ : Z) :
  (start <= end_)%Z ->
  substring s start end_
  = firstn (clamp (length s) end_ - clamp (length s) start)
           (skipn (clamp (length s) start) s).
Proof.
  intros H. unfold substring.
  assert (clamp (length s) start <= clamp (length s) end_) by (unfold clamp; lia).
  rewrite Nat.min_l, Nat.max_r by assumption. reflexivity.
Qed.

Lemma substring_head (s : JSString) (start : Z) :
  substring s 0 start = firstn (clamp (length s) start) s.
Proof.
  unfold substring. replace (clamp (length s) 0) with 0 by reflexivity.
  rewrite Nat.min_0_l, Nat.max_0_l, Nat.sub_0_r. reflexivity.
Qed.

Lemma substringFrom_tail (s : JSString) (start : Z) :
  substringFrom s start = skipn (clamp (length s) start) s.
Proof.
  unfold substringFrom, substring.
  assert (E : clamp (length s) (Z.of_nat (length s)) = length s)
    by (unfold clamp; lia).
  assert (L : clamp (length s) start <= length s) by (unfold clamp; lia).
  rewrite E, Nat.min_l, Nat.max_r by assumption.
  rewrite <- (length_skipn (clamp (length s) start) s). apply firstn_all.
Qed.

Lemma three_parts {A : Type} (l : list A) (a b : nat) :
  a <= b -> firstn a l ++ firstn (b - a) (skipn a l) ++ skipn b l = l.
Proof.
  intros H. replace (skipn b l) with (skipn (b - a) (skipn a l))
    by (rewrite skipn_skipn; f_equal; lia).
  rewrite firstn_skipn. apply firstn_skipn.
Qed.

Lemma splice_selected_text (body : JSString) (start end_ : Z) :
  (start <= end_)%Z ->
  App.spliceAtOffsets body start end_ (substring body start end_) = body.
Proof.
  intros H. unfold App.spliceAtOffsets.
  rewrite substring_head, substringFrom_tail, substring_spec by exact H.
  apply three_parts. unfold clamp. lia.
Qed.

(** X4: for [start <= end], in range or not, splicing the selected text
    back into its place gives the body back. *)
Theorem spliceAtOffsets_selected_text (body : JSString) (start end_ : Z) :
  (start <= end_)%Z ->
  App.spliceAtOffsets body start end_ (substring body start end_) = body.
Proof. exact (splice_selected_text body start end_). Qed.

Lemma spliceAtOffsets_selected_text_witness :
  App.spliceAtOffsets (lit "The cat sat.") 4 99 (substring (lit "The cat sat.") 4 99)
  = lit "The cat sat.".
Proof.
  apply (spliceAtOffsets_selected_text (lit "The cat sat.") 4 99). lia.
Defined.

Lemma selected_prefix (body : JSString) (start end_ : Z) :
  (start <= end_)%Z ->
  substring body 0 start ++ substring body start end_
  = firstn (clamp (length body) end_) body.
Proof.
  intros H. rewrite substring_head, substring_spec by exact H.
  set (a := clamp (length body) start). set (b := clamp (length body) end_).
  assert (Hab : a <= b) by (unfold a, b, clamp; lia).
  rewrite <- (firstn_skipn a (firstn b body)).
  rewrite firstn_firstn, Nat.min_l by exact Hab. f_equal.
  rewrite firstn_skipn_comm. do 2 f_equal. lia.
Qed.

(** What follows the selection stays where it was when text is appended to
    the selected text. *)
Lemma spliceAtOffsets_append (body extra : JSString) (start end_ : Z) :
  (start <= end_)%Z ->
  App.spliceAtOffsets body start end_ (substring body start end_ ++ extra)
  = firstn (clamp (length body) end_) body ++ extra
    ++ skipn (clamp (length body) end_) body.
Proof.
  intros H. unfold App.spliceAtOffsets.
  rewrite substringFrom_tail, <- (selected_prefix body start end_ H).
  rewrite <- !app_assoc. reflexivity.
Qed.

Lemma handleSelect_cases
        (st st' : App.State) (start end_ : Z) (sid : option JSString) :
  Handlers.handleSelect st start end_ sid = Some st' ->
  App.sections st' = App.sections st /\
  App.activeSectionId st' = App.activeSectionId st /\
  App.isFullDocMode st' = App.isFullDocMode st /\
  ((App.selection st' = App.selection st /\ App.showMicroEditTooltip st' = false) \/
   (exists target,
       Handlers.targetContent st sid = Some target /\
       App.selection st'
       = Some (mkSelection (substring target start end_) start end_ sid) /\
       App.showMicroEditTooltip st' = true /\
       start <> end_ /\
       2 <= length (trim (substring target start end_)))).
Proof.
  unfold Handlers.handleSelect. destruct (start =? end_)%Z eqn:E; simpl.
  - destruct (App.showMicroEditTooltip st) eqn:T; intros [= <-]; simpl; auto 6.
  - destruct (Handlers.targetContent st sid) as [target|]; [|discriminate].
    destruct (Nat.ltb 1 (length (trim (substring target start end_)))) eqn:L;
      intros [= <-]; simpl; repeat split; auto.
    right. exists target. apply Nat.ltb_lt in L. apply Z.eqb_neq in E.
    repeat split; auto.
Qed.

(** X5: [handleSelect] never touches the document; it either stores the
    text between the two offsets of its target, which then has at least two
    characters once trimmed, and shows the tooltip, or it keeps the
    selection it had and hides the tooltip. *)
Theorem handleSelect_outcomes
        (st st' : App.State) (start end_ : Z) (sid : option JSString) :
  Handlers.handleSelect st start end_ sid = Some st' ->
  App.sections st' = App.sections st /\
  App.activeSectionId st' = App.activeSectionId st /\
  App.isFullDocMode st' = App.isFullDocMode st /\
  ((App.selection st' = App.selection st /\ App.showMicroEditTooltip st' = false) \/
   (exists target,
       Handlers.targetContent st sid = Some target /\
       App.selection st'
       = Some (mkSelection (substring target start end_) start end_ sid) /\
       App.showMicroEditTooltip st' = true /\
       start <> end_ /\
       2 <= length (trim (substring target start end_)))).
Proof. exact (handleSelect_cases st st' start end_ sid). Qed.

Lemma handleSelect_outcomes_witness :
  let st := App.mkState [mkSection (lit "s1") (lit "One") (lit "The cat sat.")]
                        (lit "s1") false None None None false in
  let st' := Handlers.withSelection st
               (Some (mkSelection (lit "cat") 4 7 None)) true in
  App.sections st' = App.sections st /\
  App.activeSectionId st' = App.activeSectionId st /\
  App.isFullDocMode st' = App.isFullDocMode st /\
  ((App.selection st' = App.selection st /\ App.showMicroEditTooltip st' = false) \/
   (exists target,
       Handlers.targetContent st None = Some target /\
       App.selection st' = Some (mkSelection (substring target 4 7) 4 7 None) /\
       App.showMicroEditTooltip st' = true /\
       4%Z <> 7%Z /\
       2 <= length (trim (substring target 4 7)))).
Proof.
  intros st st'.
  apply (handleSelect_outcomes st st' 4 7 None). reflexivity.
Defined.

Lemma withContent_same (s : PaperSection) : App.withContent s (content s) = s.
Proof. destruct s; reflexivity. Qed.

Lemma map_fixed {A : Type} (f : A -> A) (l : list A) :
  (forall x, In x l -> f x = x) -> map f l = l.
Proof.
  induction l as [|x l IH]; intros H; simpl; [reflexivity|].
  rewrite H by (left; reflexivity). f_equal. apply IH. intros y Hy. apply H. right. exact Hy.
Qed.

(** With pairwise different ids, [find] by id returns the one section that
    has the id. *)
Lemma find_by_id (secs : list PaperSection) (i : JSString) :
  NoDup (map id secs) ->
  (forall s, In s secs -> id s = i ->
             find (fun x => JS.eqb (id x) i) secs = Some s) /\
  (find (fun x => JS.eqb (id x) i) secs = None ->
   forall s, In s secs -> id s <> i).
Proof.
  induction secs as [|x secs IH]; intros H; simpl.
  - split; [contradiction | auto].
  - inversion H as [|? ? Hx Hrest]; subst. destruct (IH Hrest) as [IH1 IH2].
    destruct (JS.eqb (id x) i) eqn:E.
    + apply eqb_eq in E. split; [|discriminate].
      intros s [<-|Hin] Hid; [reflexivity|].
      exfalso. apply Hx. rewrite E, <- Hid. apply in_map. exact Hin.
    + apply eqb_neq in E. split.
      * intros s [<-|Hin] Hid; [contradiction | auto].
      * intros Hn s [<-|Hin]; auto.
Qed.

(** Splicing the selected text back, in the section branch of
    [updateDocumentAtSelection], changes no section. *)
Lemma section_splice_selected_text
      (secs : list PaperSection) (targetId target : JSString) (start end_ : Z) :
  (start <= end_)%Z ->
  (forall s, In s secs -> id s = targetId -> content s = target) ->
  map (fun s =>
         if JS.eqb (id s) targetId
         then App.withContent s
                (App.spliceAtOffsets (content s) start end_ (substring target start end_))
         else s) secs
  = secs.
Proof.
  intros H Ht. apply map_fixed. intros s Hin.
  destruct (JS.eqb (id s) targetId) eqn:E; [|reflexivity].
  apply eqb_eq in E. rewrite <- (Ht s Hin E).
  rewrite splice_selected_text by exact H. apply withContent_same.
Qed.

Lemma orElse_nil_r (a : JSString) : orElse a [] = a.
Proof. destruct a; reflexivity. Qed.

(** The text that [handleSelect] reads is the content of every section that
    the section branch of [updateDocumentAtSelection] will rewrite. *)
Lemma targetContent_is_spliced (st : App.State) (sid : option JSString) (target : JSString) :
  NoDup (map id (App.sections st)) ->
  App.isFullDocMode st = false \/ App.present sid = true ->
  Handlers.targetContent st sid = Some target ->
  forall s, In s (App.sections st) ->
    id s = match sid with
           | Some i => orElse i (App.activeSectionId st)
           | None => App.activeSectionId st
           end ->
    content s = target.
Proof.
  intros Hnd Hmode Ht s Hin Hid.
  unfold Handlers.targetContent in Ht.
  destruct (App.present sid) eqn:P.
  - destruct sid as [i|]; [|discriminate]. simpl in P.
    unfold orElse in Hid. rewrite P in Hid.
    destruct (find_by_id (App.sections st) i Hnd) as [F _].
    rewrite (F s Hin Hid), orElse_nil_r in Ht. congruence.
  - destruct Hmode as [M|M]; [|discriminate]. rewrite M in Ht.
    assert (Hid' : id s = App.activeSectionId st).
    { destruct sid as [i|]; [|exact Hid]. simpl in P.
      unfold orElse in Hid. rewrite P in Hid. exact Hid. }
    unfold Handlers.activeSection in Ht.
    destruct (find_by_id (App.sections st) (App.activeSectionId st) Hnd) as [F _].
    rewrite (F s Hin Hid') in Ht. simpl in Ht. congruence.
Qed.

(** X6: selecting text and asking for a micro-edit to which the model
    replies with no text leaves every section as it was (ids pairwise
    different; section view, or a selection made in a section's own
    textarea). *)
Theorem microEdit_without_reply_text_keeps_sections
        (now : nat -> N) (ui : Ui) (start end_ : Z) (sid : option JSString)
        (st1 : App.State) (responseText : option JSString) :
  App.selection (appState ui) = None ->
  (start <= end_)%Z ->
  NoDup (map id (App.sections (appState ui))) ->
  App.isFullDocMode (appState ui) = false \/ App.present sid = true ->
  Handlers.handleSelect (appState ui) start end_ sid = Some st1 ->
  responseText = None \/ responseText = Some [] ->
  App.sections
    (appState (Handlers.handleMicroEdit now (Handlers.onApp ui st1)
                                        (Resolved responseText)))
  = App.sections (appState ui).
Proof.
  intros Hnone Hle Hnd Hmode Hsel Hreply.
  destruct (handleSelect_cases _ _ _ _ _ Hsel)
    as (Hsecs & Hact & Hfull & [[Hs _]|(target & Ht & Hs & _)]).
  - unfold Handlers.handleMicroEdit. simpl. rewrite Hs, Hnone. simpl. exact Hsecs.
  - unfold Handlers.handleMicroEdit. simpl. rewrite Hs. simpl.
    assert (T : Handlers.textOr responseText (substring target start end_)
                = substring target start end_)
      by (destruct Hreply as [-> | ->]; reflexivity).
    rewrite T. unfold App.updateDocumentAtSelection. rewrite Hs. simpl.
    rewrite Hfull, Hact, Hsecs.
    assert (B : App.isFullDocMode (appState ui) && negb (App.present sid) = false)
      by (destruct Hmode as [-> | ->]; [reflexivity | apply andb_false_r]).
    rewrite B. simpl.
    apply section_splice_selected_text; [exact Hle|].
    intros s Hin Hid.
    exact (targetContent_is_spliced (appState ui) sid target Hnd Hmode Ht s Hin Hid).
Qed.

Lemma microEdit_without_reply_text_keeps_sections_witness :
  let st := App.mkState [mkSection (lit "s1") (lit "One") (lit "The cat sat.")]
                        (lit "s1") false None None None false in
  let ui := mkUi st false false [] in
  let st1 := Handlers.withSelection st (Some (mkSelection (lit "cat") 4 7 None)) true in
  App.sections
    (appState (Handlers.handleMicroEdit (fun _ => 0%N) (Handlers.onApp ui st1)
                                        (Resolved (Some []))))
  = App.sections st.
Proof.
  intros st ui st1.
  apply (microEdit_without_reply_text_keeps_sections
           (fun _ => 0%N) ui 4 7 None st1 (Some [])).
  - reflexivity.
  - lia.
  - simpl. repeat constructor. simpl. tauto.
  - left. reflexivity.
  - reflexivity.
  - right. reflexivity.
Defined.

Section Cite.
Variables (now : nat -> N) (st : App.State) (sel : Selection) (sid marker : JSString).
Variables (i : nat) (sec : PaperSection).
Hypothesis Hsel : App.selection st = Some sel.
Hypothesis Hsid : sectionId sel = Some sid.
Hypothesis Hsid_nonempty : sid <> [].
Hypothesis Hsec : nth_error (App.sections st) i = Some sec.
Hypothesis Hid : id sec = sid.

(** The section branch at the position of a section that has the target
    id. *)
Lemma updateDocumentAtSelection_at (newSegment : JSString) (skip : bool) :
  let st' := App.updateDocumentAtSelection now st newSegment skip in
  nth_error (App.sections st') i
  = Some (mkSection (id sec) (title sec)
            (App.spliceAtOffsets (content sec) (selStart sel) (selEnd sel) newSegment))
  /\ App.selection st' = (if skip then Some sel else None).
Proof.
  unfold App.updateDocumentAtSelection. rewrite Hsel, Hsid.
  unfold App.present, orElse. rewrite (truthy_true Hsid_nonempty). simpl.
  rewrite andb_false_r.
  destruct skip; simpl; rewrite ?Hsel, nth_error_map, Hsec; simpl;
    rewrite (proj2 (eqb_eq (id sec) sid) Hid); split; reflexivity.
Qed.
End Cite.

Lemma cite_after_selection
        (now : nat -> N) (st : App.State) (sel : Selection) (sid marker : JSString)
        (i : nat) (sec : PaperSection) :
  App.selection st = Some sel -> sectionId sel = Some sid -> sid <> [] ->
  nth_error (App.sections st) i = Some sec -> id sec = sid ->
  (selStart sel <= selEnd sel)%Z ->
  selText sel = substring (content sec) (selStart sel) (selEnd sel) ->
  let e := clamp (length (content sec)) (selEnd sel) in
  let st' := fst (Handlers.handleCiteAtSelection now st marker) in
  snd (Handlers.handleCiteAtSelection now st marker) = None /\
  App.selection st' = Some sel /\
  nth_error (App.sections st') i
  = Some (mkSection (id sec) (title sec)
            (firstn e (content sec) ++ (lit " " ++ marker) ++ skipn e (content sec))).
Proof.
  intros Hsel Hsid Hne Hsec Hid Hle Htext e st'.
  subst st'. unfold Handlers.handleCiteAtSelection. rewrite Hsel. cbn [fst snd].
  destruct (updateDocumentAtSelection_at now st sel sid i sec Hsel Hsid Hne Hsec Hid
              (selText sel ++ lit " " ++ marker) true) as [A B].
  split; [reflexivity|]. split; [exact B|].
  rewrite A, Htext, spliceAtOffsets_append by exact Hle. reflexivity.
Qed.

(** X7: citing at a selection that holds the text between its offsets
    (start <= end) puts a space and the marker right after the end of the
    selection; the text before and after that point is kept, the selection
    stays, and no alert is raised. *)
Theorem cite_inserts_after_selection
        (now : nat -> N) (st : App.State) (sel : Selection) (sid marker : JSString)
        (i : nat) (sec : PaperSection) :
  App.selection st = Some sel -> sectionId sel = Some sid -> sid <> [] ->
  nth_error (App.sections st) i = Some sec -> id sec = sid ->
  (selStart sel <= selEnd sel)%Z ->
  selText sel = substring (content sec) (selStart sel) (selEnd sel) ->
  let e := clamp (length (content sec)) (selEnd sel) in
  let st' := fst (Handlers.handleCiteAtSelection now st marker) in
  snd (Handlers.handleCiteAtSelection now st marker) = None /\
  App.selection st' = Some sel /\
  nth_error (App.sections st') i
  = Some (mkSection (id sec) (title sec)
            (firstn e (content sec) ++ (lit " " ++ marker) ++ skipn e (content sec))).
Proof. exact (cite_after_selection now st sel sid marker i sec). Qed.

Lemma cite_inserts_after_selection_witness :
  let sec := mkSection (lit "s2") (lit "Two") (lit "The cat sat.") in
  let sel := mkSelection (lit "cat") 4 7 (Some (lit "s2")) in
  let e := clamp (length (content sec)) (selEnd sel) in
  let st' := fst (Handlers.handleCiteAtSelection (fun _ => 0%N) twoSectionState
                                                 (lit "[1]")) in
  snd (Handlers.handleCiteAtSelection (fun _ => 0%N) twoSectionState (lit "[1]")) = None /\
  App.selection st' = Some sel /\
  nth_error (App.sections st') 1
  = Some (mkSection (id sec) (title sec)
            (firstn e (content sec) ++ (lit " " ++ lit "[1]") ++ skipn e (content sec))).
Proof.
  intros sec sel.
  apply (cite_inserts_after_selection (fun _ => 0%N) twoSectionState sel (lit "s2")
           (lit "[1]") 1 sec); try reflexivity.
  - discriminate.
  - simpl. lia.
Defined.

(** X8: citing twice at the selection that the first citation kept (offsets
    within the content) puts the second marker before the first one. *)
Theorem cite_twice_puts_second_marker_first
        (now now' : nat -> N) (st : App.State) (sel : Selection)
        (sid m1 m2 : JSString) (i : nat) (sec : PaperSection) :
  App.selection st = Some sel -> sectionId sel = Some sid -> sid <> [] ->
  nth_error (App.sections st) i = Some sec -> id sec = sid ->
  (0 <= selStart sel)%Z -> (selStart sel <= selEnd sel)%Z ->
  (selEnd sel <= Z.of_nat (length (content sec)))%Z ->
  selText sel = substring (content sec) (selStart sel) (selEnd sel) ->
  let e := Z.to_nat (selEnd sel) in
  let st1 := fst (Handlers.handleCiteAtSelection now st m1) in
  let st2 := fst (Handlers.handleCiteAtSelection now' st1 m2) in
  nth_error (App.sections st2) i
  = Some (mkSection (id sec) (title sec)
            (firstn e (content sec) ++ (lit " " ++ m2) ++ (lit " " ++ m1)
             ++ skipn e (content sec))).
Proof.
  intros Hsel Hsid Hne Hsec Hid H0 Hle Hlen Htext e st1 st2.
  assert (Ce : clamp (length (content sec)) (selEnd sel) = e)
    by (unfold clamp, e; lia).
  destruct (cite_after_selection now st sel sid m1 i sec
              Hsel Hsid Hne Hsec Hid Hle Htext) as (_ & S1 & N1).
  fold st1 in S1, N1. rewrite Ce in N1.
  set (body1 := firstn e (content sec) ++ (lit " " ++ m1) ++ skipn e (content sec)) in *.
  subst st2. unfold Handlers.handleCiteAtSelection. rewrite S1. cbn [fst].
  destruct (updateDocumentAtSelection_at now' st1 sel sid i
              (mkSection (id sec) (title sec) body1) S1 Hsid Hne N1 Hid
              (selText sel ++ lit " " ++ m2) true) as [A _].
  rewrite A. cbn [id title content]. do 2 f_equal.
  assert (Le : e <= length (content sec)) by (unfold e; lia).
  assert (Lf : length (firstn e (content sec)) = e) by (apply firstn_length_le; exact Le).
  assert (L1 : e <= length body1).
  { unfold body1. rewrite length_app, Lf. lia. }
  unfold App.spliceAtOffsets.
  rewrite substring_head, substringFrom_tail.
  replace (clamp (length body1) (selEnd sel)) with e by (unfold clamp, e; lia).
  replace (clamp (length body1) (selStart sel)) with (Z.to_nat (selStart sel))
    by (unfold clamp, e in *; lia).
  assert (P : firstn (Z.to_nat (selStart sel)) body1 = substring (content sec) 0 (selStart sel)).
  { rewrite substring_head.
    replace (clamp (length (content sec)) (selStart sel)) with (Z.to_nat (selStart sel))
      by (unfold clamp; lia).
    unfold body1. rewrite firstn_app, Lf.
    replace (Z.to_nat (selStart sel) - e) with 0 by (unfold e; lia).
    simpl. rewrite app_nil_r, firstn_firstn. f_equal. unfold e. lia. }
  assert (Q : skipn e body1 = (lit " " ++ m1) ++ skipn e (content sec)).
  { unfold body1. rewrite skipn_app, Lf, Nat.sub_diag. simpl skipn at 2.
    rewrite skipn_all2 by lia. reflexivity. }
  rewrite P, Q, Htext.
  rewrite <- Ce, <- (selected_prefix (content sec) (selStart sel) (selEnd sel) Hle).
  rewrite <- !app_assoc. reflexivity.
Qed.

Lemma cite_twice_puts_second_marker_first_witness :
  let sec := mkSection (lit "s2") (lit "Two") (lit "The cat sat.") in
  let st1 := fst (Handlers.handleCiteAtSelection (fun _ => 0%N) twoSectionState
                                                 (lit "[1]")) in
  let st2 := fst (Handlers.handleCiteAtSelection (fun _ => 1%N) st1 (lit "[2]")) in
  nth_error (App.sections st2) 1
  = Some (mkSection (lit "s2") (lit "Two")
            (firstn 7 (content sec) ++ (lit " " ++ lit "[2]") ++ (lit " " ++ lit "[1]")
             ++ skipn 7 (content sec))).
Proof.
  intros sec.
  apply (cite_twice_puts_second_marker_first
           (fun _ => 0%N) (fun _ => 1%N) twoSectionState
           (mkSelection (lit "cat") 4 7 (Some (lit "s2"))) (lit "s2")
           (lit "[1]") (lit "[2]") 1 sec); try reflexivity.
  - discriminate.
  - simpl. lia.
  - simpl. lia.
  - simpl. lia.
Defined.

(* ================================================================== *)
(** * The reference list *)

Section References.
Variable toLowerCase : JSString -> JSString.

Lemma join_merge (sep a b : JSString) (rs : list JSString) :
  join sep ((a ++ sep ++ b) :: rs) = join sep (a :: b :: rs).
Proof.
  destruct rs as [|r rs]; [reflexivity|].
  change (join sep ((a ++ sep ++ b) :: r :: rs))
    with ((a ++ sep ++ b) ++ sep ++ join sep (r :: rs)).
  change (join sep (a :: b :: r :: rs))
    with (a ++ sep ++ b ++ sep ++ join sep (r :: rs)).
  rewrite <- !app_assoc. reflexivity.
Qed.

Lemma findIndex_None {A : Type} (p : A -> bool) (l : list A) :
  Handlers.findIndex p l = None <-> forall x, In x l -> p x = false.
Proof.
  induction l as [|x l IH]; simpl.
  - split; [intros _ y [] | reflexivity].
  - destruct (p x) eqn:E.
    + split; [discriminate|]. intros H. specialize (H x (or_introl eq_refl)). congruence.
    + destruct (Handlers.findIndex p l); simpl.
      * split; [discriminate|]. intros H.
        assert (Some n = None); [|discriminate].
        apply IH. intros y Hy. apply H. right. exact Hy.
      * split; [|reflexivity]. intros _ y [<-|Hy]; [exact E|].
        apply (proj1 IH eq_refl). exact Hy.
Qed.

Lemma findIndex_Some {A : Type} (p : A -> bool) (l : list A) (i : nat) :
  Handlers.findIndex p l = Some i ->
  exists before x after,
    l = before ++ x :: after /\ length before = i /\ p x = true /\
    forall y, In y before -> p y = false.
Proof.
  revert i. induction l as [|x l IH]; intros i; simpl; [discriminate|].
  destruct (p x) eqn:E.
  - intros [= <-]. exists [], x, l. repeat split; auto. intros y [].
  - destruct (Handlers.findIndex p l) as [j|]; [|discriminate]. simpl. intros [= <-].
    destruct (IH j eq_refl) as (before & y & after & -> & L & Py & Hb).
    exists (x :: before), y, after. repeat split; simpl; auto.
    intros z [<-|Hz]; auto.
Qed.

Lemma setAt_middle {A : Type} (before after : list A) (x y : A) :
  Handlers.setAt (length before) y (before ++ x :: after) = before ++ y :: after.
Proof. induction before as [|b before IH]; simpl; [reflexivity | f_equal; exact IH]. Qed.

Lemma nth_error_middle {A : Type} (before after : list A) (x : A) :
  nth_error (before ++ x :: after) (length before) = Some x.
Proof. induction before; simpl; auto. Qed.

Lemma addReference_cases (fullRef : JSString) (prev : list PaperSection) :
  ((forall s, In s prev -> Handlers.isReferences toLowerCase s = false) ->
   Handlers.addReference toLowerCase fullRef prev
   = prev ++ [mkSection (lit "refs-auto") (lit "References") fullRef]) /\
  (forall before s after,
      prev = before ++ s :: after -> Handlers.isReferences toLowerCase s = true ->
      (forall x, In x before -> Handlers.isReferences toLowerCase x = false) ->
      Handlers.addReference toLowerCase fullRef prev
      = before
        ++ mkSection (id s) (title s)
             (trim (content s) ++ (if truthy (trim (content s)) then [LF] else [])
              ++ fullRef)
        :: after).
Proof.
  split.
  - intros H. unfold Handlers.addReference.
    rewrite (proj2 (findIndex_None _ prev) H).
    rewrite length_app. simpl length. rewrite Nat.add_sub.
    rewrite nth_error_middle, setAt_middle. reflexivity.
  - intros before s after -> Hs Hb. unfold Handlers.addReference.
    destruct (Handlers.findIndex (Handlers.isReferences toLowerCase) (before ++ s :: after)) as [i|] eqn:E.
    + destruct (findIndex_Some _ _ _ E) as (b' & x & a' & El & L & Px & Hb').
      assert (Hlen : length before = length b').
      { destruct (Nat.lt_total (length before) (length b')) as [C|[C|C]]; [|exact C|].
        - exfalso.
          assert (In s b').
          { apply (f_equal (fun l => nth_error l (length before))) in El.
            rewrite nth_error_middle, nth_error_app1 in El by exact C.
            symmetry in El. apply nth_error_In in El. exact El. }
          rewrite (Hb' s H) in Hs. discriminate.
        - exfalso.
          assert (In x before).
          { apply (f_equal (fun l => nth_error l (length b'))) in El.
            rewrite nth_error_middle, nth_error_app1 in El by exact C.
            apply nth_error_In in El. exact El. }
          rewrite (Hb x H) in Px. discriminate. }
      rewrite <- L, <- Hlen, nth_error_middle, setAt_middle. reflexivity.
    + exfalso. rewrite findIndex_None in E.
      rewrite (E s) in Hs; [discriminate|]. apply in_or_app. right. left. reflexivity.
Qed.

(** X9: [handleAddReference] rewrites the FIRST section whose lower-cased
    title contains "reference": its content becomes its trimmed content, a
    line feed when that is not empty, and the reference; every other
    section, a later references section included, is kept.  When no title
    matches, a section "References" with id "refs-auto" holding the
    reference is appended. *)
Theorem addReference_target (fullRef : JSString) (prev : list PaperSection) :
  ((forall s, In s prev -> Handlers.isReferences toLowerCase s = false) ->
   Handlers.addReference toLowerCase fullRef prev
   = prev ++ [mkSection (lit "refs-auto") (lit "References") fullRef]) /\
  (forall before s after,
      prev = before ++ s :: after -> Handlers.isReferences toLowerCase s = true ->
      (forall x, In x before -> Handlers.isReferences toLowerCase x = false) ->
      Handlers.addReference toLowerCase fullRef prev
      = before
        ++ mkSection (id s) (title s)
             (trim (content s) ++ (if truthy (trim (content s)) then [LF] else [])
              ++ fullRef)
        :: after).
Proof. exact (addReference_cases fullRef prev). Qed.

(** X10: adding references one after the other, as the citation flow does,
    to a document that has no references section yet (each reference
    trimmed and not empty, and "References" lower-cased containing
    "reference") appends one section whose content is the references
    joined by line feeds. *)
Theorem addReference_sequence (refs : list JSString) (prev : list PaperSection) :
  includes (toLowerCase (lit "References")) (lit "reference") = true ->
  (forall s, In s prev -> Handlers.isReferences toLowerCase s = false) ->
  refs <> [] ->
  Forall (fun r => r <> [] /\ trimmed r) refs ->
  fold_left (fun secs r => Handlers.addReference toLowerCase r secs) refs prev
  = prev ++ [mkSection (lit "refs-auto") (lit "References") (join [LF] refs)].
Proof.
  intros Hlow Hnone Hne Hrefs.
  destruct refs as [|r refs]; [contradiction|]. clear Hne.
  inversion Hrefs as [|? ? [Hr Htr] Hrest]; subst.
  cbn [fold_left]. rewrite (proj1 (addReference_cases r prev) Hnone).
  assert (G : forall rs acc,
             acc <> [] -> trimmed acc ->
             Forall (fun r => r <> [] /\ trimmed r) rs ->
             fold_left (fun secs r => Handlers.addReference toLowerCase r secs) rs
                       (prev ++ [mkSection (lit "refs-auto") (lit "References") acc])
             = prev ++ [mkSection (lit "refs-auto") (lit "References")
                                  (join [LF] (acc :: rs))]).
  { clear - Hlow Hnone. induction rs as [|r2 rs IH]; intros acc Ha Hta H.
    - reflexivity.
    - inversion H as [|? ? [Hr2 Htr2] Hrs]; subst. cbn [fold_left].
      rewrite (proj2 (addReference_cases r2
                        (prev ++ [mkSection (lit "refs-auto") (lit "References") acc]))
                     prev (mkSection (lit "refs-auto") (lit "References") acc) []
                     eq_refl Hlow Hnone).
      cbn [id title content]. rewrite (trim_of_trimmed acc Hta), (truthy_true Ha).
      assert (Hn : acc ++ [LF] ++ r2 <> []) by (destruct acc; [contradiction | discriminate]).
      assert (Ht : trimmed (acc ++ [LF] ++ r2)).
      { right. destruct Hta as [->|[H1 _]]; [contradiction|].
        destruct Htr2 as [->|[_ H2]]; [contradiction|]. split.
        - destruct acc; [contradiction | exact H1].
        - rewrite app_assoc, last_app_nonempty by exact Hr2. exact H2. }
      rewrite (IH (acc ++ [LF] ++ r2) Hn Ht Hrs).
      do 3 f_equal. apply join_merge. }
  rewrite (G refs r Hr Htr Hrest). reflexivity.
Qed.
End References.

Lemma addReference_sequence_witness :
  fold_left (fun secs r => Handlers.addReference asciiLower r secs)
            [lit "Knuth 1968"; lit "Turing 1936"]
            [mkSection (lit "s1") (lit "One") (lit "The cat sat.")]
  = [mkSection (lit "s1") (lit "One") (lit "The cat sat.")]
    ++ [mkSection (lit "refs-auto") (lit "References")
                  (join [LF] [lit "Knuth 1968"; lit "Turing 1936"])].
Proof.
  apply (addReference_sequence asciiLower [lit "Knuth 1968"; lit "Turing 1936"]
           [mkSection (lit "s1") (lit "One") (lit "The cat sat.")]).
  - reflexivity.
  - intros s [<-|[]]. reflexivity.
  - discriminate.
  - repeat constructor; try discriminate; right; split; reflexivity.
Defined.

Lemma addReference_target_witness :
  Handlers.addReference asciiLower (lit "Knuth 1968")
    ([mkSection (lit "s1") (lit "One") (lit "The cat sat.")]
       ++ mkSection (lit "refs") (lit "My REFERENCES") (lit " Turing 1936 ")
       :: [mkSection (lit "r2") (lit "References") []])
  = [mkSection (lit "s1") (lit "One") (lit "The cat sat.")]
      ++ mkSection (lit "refs") (lit "My REFERENCES")
           (trim (lit " Turing 1936 ")
              ++ (if truthy (trim (lit " Turing 1936 ")) then [LF] else [])
              ++ lit "Knuth 1968")
      :: [mkSection (lit "r2") (lit "References") []].
Proof.
  apply (proj2 (addReference_target asciiLower (lit "Knuth 1968")
                  ([mkSection (lit "s1") (lit "One") (lit "The cat sat.")]
                     ++ mkSection (lit "refs") (lit "My REFERENCES") (lit " Turing 1936 ")
                     :: [mkSection (lit "r2") (lit "References") []]))
               [mkSection (lit "s1") (lit "One") (lit "The cat sat.")]
               (mkSection (lit "refs") (lit "My REFERENCES") (lit " Turing 1936 "))
               [mkSection (lit "r2") (lit "References") []]).
  - reflexivity.
  - reflexivity.
  - intros x [<-|[]]. reflexivity.
Defined.

(* ================================================================== *)
(** * Previewing and applying a fix *)

Lemma block_holds_content (s : PaperSection) :
  exists pre, App.block s = pre ++ content s.
Proof. exists (lit "# " ++ title s ++ [LF; LF]). unfold App.block. rewrite <- !app_assoc. reflexivity. Qed.

Lemma fullText_holds_block (secs : list PaperSection) (s : PaperSection) :
  In s secs -> exists pre post, App.fullText secs = pre ++ App.block s ++ post.
Proof.
  unfold App.fullText. induction secs as [|x secs IH]; [contradiction|].
  intros [<-|Hin].
  - destruct secs as [|y secs].
    + exists [], []. simpl. rewrite app_nil_r. reflexivity.
    + exists [], ([LF; LF] ++ join [LF; LF] (map App.block (y :: secs))).
      cbn [map]. rewrite join_cons by discriminate. reflexivity.
  - destruct (IH Hin) as (pre & post & E).
    destruct secs as [|y secs]; [contradiction|].
    exists (App.block x ++ [LF; LF] ++ pre), post.
    cbn [map] in *. rewrite join_cons by discriminate. rewrite E.
    rewrite <- !app_assoc. reflexivity.
Qed.

Lemma occursIn_fullText (secs : list PaperSection) (s : PaperSection) (snip : JSString) :
  In s secs -> occursIn snip (content s) -> occursIn snip (App.fullText secs).
Proof.
  intros Hin (p & q & E).
  destruct (fullText_holds_block secs s Hin) as (pre & post & F).
  destruct (block_holds_content s) as (b & B).
  exists (pre ++ b ++ p), (q ++ post).
  rewrite F, B, E. rewrite <- !app_assoc. reflexivity.
Qed.

Lemma indexOf_occurs (s pat : JSString) :
  occursIn pat s <-> exists n, indexOf s pat = Some n.
Proof.
  split.
  - intros (p & q & E). destruct (indexOf s pat) as [n|] eqn:I; [eauto|].
    exfalso. exact (indexOf_None _ _ I p q E).
  - intros (n & I). apply indexOf_Some in I as (p & q & E & _). exists p, q. exact E.
Qed.

(** X11: [handlePreviewFix] starts a preview exactly when the issue has a
    non-empty snippet that occurs in the full-document text, and otherwise
    changes nothing; so every non-empty snippet that occurs in the content
    of some section can be previewed. *)
Theorem handlePreviewFix_accepts (st : App.State) (issue : AnalysisIssue) :
  ((exists snip, snippet issue = Some snip /\ snip <> [] /\
                 occursIn snip (App.fullText (App.sections st)))
   -> Handlers.handlePreviewFix st issue = Handlers.withPreview st (Some issue)) /\
  (~ (exists snip, snippet issue = Some snip /\ snip <> [] /\
                   occursIn snip (App.fullText (App.sections st)))
   -> Handlers.handlePreviewFix st issue = st) /\
  (forall snip s, snippet issue = Some snip -> snip <> [] ->
                  In s (App.sections st) -> occursIn snip (content s) ->
                  App.previewingIssue (Handlers.handlePreviewFix st issue) = Some issue).
Proof.
  assert (A : (exists snip, snippet issue = Some snip /\ snip <> [] /\
                 occursIn snip (App.fullText (App.sections st)))
              -> Handlers.handlePreviewFix st issue = Handlers.withPreview st (Some issue)).
  { intros (snip & Hs & Hne & Ho). unfold Handlers.handlePreviewFix.
    rewrite Hs, (truthy_true Hne). simpl.
    apply indexOf_occurs in Ho as (n & ->). reflexivity. }
  split; [exact A|]. split.
  - intros H. unfold Handlers.handlePreviewFix.
    destruct (snippet issue) as [snip|] eqn:Hs; [|reflexivity].
    destruct snip as [|c snip]; [reflexivity|]. simpl.
    destruct (indexOf (App.fullText (App.sections st)) (c :: snip)) as [n|] eqn:I;
      [|reflexivity].
    exfalso. apply H. exists (c :: snip). repeat split; [discriminate|].
    apply indexOf_occurs. eauto.
  - intros snip s Hs Hne Hin Ho. rewrite A; [reflexivity|].
    exists snip. repeat split; auto. exact (occursIn_fullText _ s snip Hin Ho).
Qed.

Lemma handlePreviewFix_accepts_witness :
  App.previewingIssue
    (Handlers.handlePreviewFix
       (docState [mkSection (lit "s1") (lit "One") (lit "The cat sat.")] [])
       (fixIssue (lit "i1") (lit "cat") (lit "dog")))
  = Some (fixIssue (lit "i1") (lit "cat") (lit "dog")).
Proof.
  apply (proj2 (proj2 (handlePreviewFix_accepts
                  (docState [mkSection (lit "s1") (lit "One") (lit "The cat sat.")] [])
                  (fixIssue (lit "i1") (lit "cat") (lit "dog"))))
               (lit "cat") (mkSection (lit "s1") (lit "One") (lit "The cat sat."))).
  - reflexivity.
  - discriminate.
  - left. reflexivity.
  - exists (lit "The "), (lit " sat."). reflexivity.
Defined.

(** X12: the spans drawn by [renderHighlights], put end to end, are always
    the displayed text; while a preview is shown they are the text before
    the lowest occurrence of the snippet, the snippet itself (the one marked
    span), and the text after it. *)
Theorem renderHighlights_spans (st : App.State) (spans : list Span) :
  Handlers.renderHighlights st = Some spans ->
  exists text,
    (if App.isFullDocMode st then Some (App.fullText (App.sections st))
     else option_map content (Handlers.activeSection st)) = Some text /\
    concat (map spanText spans) = text /\
    (spans = [mkSpan false text] \/
     exists issue snip pre post,
       App.previewingIssue st = Some issue /\ snippet issue = Some snip /\
       snip <> [] /\ firstOccurrence text pre snip post /\
       spans = [mkSpan false pre; mkSpan true snip; mkSpan false post]).
Proof.
  unfold Handlers.renderHighlights.
  destruct (if App.isFullDocMode st then Some (App.fullText (App.sections st))
            else option_map content (Handlers.activeSection st)) as [text|];
    [|discriminate].
  assert (Plain : Some [mkSpan false text] = Some spans ->
                  exists t, Some text = Some t /\ concat (map spanText spans) = t /\
                    (spans = [mkSpan false t] \/
                     exists issue snip pre post,
                       App.previewingIssue st = Some issue /\ snippet issue = Some snip /\
                       snip <> [] /\ firstOccurrence t pre snip post /\
                       spans = [mkSpan false pre; mkSpan true snip; mkSpan false post])).
  { intros [= <-]. exists text. simpl. rewrite app_nil_r. auto. }
  destruct (App.previewingIssue st) as [issue|]; [|exact Plain].
  destruct (snippet issue) as [snip|] eqn:Hs; [|exact Plain].
  destruct (truthy snip) eqn:T; [|exact Plain]. simpl.
  destruct (indexOf text snip) as [pos|] eqn:I; [|exact Plain].
  intros [= <-]. exists text.
  destruct (indexOf_Some _ _ _ I) as (pre & post & E & L & Hmin).
  assert (P1 : substring text 0 (Z.of_nat pos) = pre).
  { rewrite substring_head. unfold clamp. rewrite Nat2Z.id, E, <- L.
    rewrite Nat.min_l by (rewrite length_app; lia).
    rewrite firstn_app, firstn_all, Nat.sub_diag. simpl. apply app_nil_r. }
  assert (P3 : substringFrom text (Z.of_nat (pos + length snip)) = post).
  { rewrite substringFrom_tail. unfold clamp. rewrite Nat2Z.id, E, <- L.
    rewrite Nat.min_l by (rewrite !length_app; lia).
    rewrite app_assoc, skipn_app, <- length_app, skipn_all, Nat.sub_diag. reflexivity. }
  assert (P2 : substring text (Z.of_nat pos) (Z.of_nat (pos + length snip)) = snip).
  { pose proof (selected_prefix text (Z.of_nat pos) (Z.of_nat (pos + length snip))
                  ltac:(lia)) as S.
    rewrite P1 in S. unfold clamp in S. rewrite Nat2Z.id in S.
    rewrite E in S at 2 3. rewrite <- L in S.
    rewrite Nat.min_l in S by (rewrite !length_app; lia).
    rewrite app_assoc, firstn_app, <- length_app, firstn_all, Nat.sub_diag in S.
    simpl in S. rewrite app_nil_r in S. apply app_inv_head in S.
    rewrite length_app, L in S. exact S. }
  rewrite P1, P2, P3. split; [reflexivity|]. split.
  - simpl. rewrite app_nil_r. symmetry. exact E.
  - right. exists issue, snip, pre, post. repeat split; auto.
    + intros ->. discriminate.
    + intros pre' post' E'. rewrite L. exact (Hmin pre' post' E').
Qed.

Lemma renderHighlights_spans_witness :
  let st := App.mkState [mkSection (lit "s1") (lit "One") (lit "The cat sat.")]
                        (lit "s1") false None
                        (Some (fixIssue (lit "i1") (lit "cat") (lit "dog"))) None false in
  let spans := [mkSpan false (lit "The "); mkSpan true (lit "cat");
                mkSpan false (lit " sat.")] in
  exists text,
    (if App.isFullDocMode st then Some (App.fullText (App.sections st))
     else option_map content (Handlers.activeSection st)) = Some text /\
    concat (map spanText spans) = text /\
    (spans = [mkSpan false text] \/
     exists issue snip pre post,
       App.previewingIssue st = Some issue /\ snippet issue = Some snip /\
       snip <> [] /\ firstOccurrence text pre snip post /\
       spans = [mkSpan false pre; mkSpan true snip; mkSpan false post]).
Proof.
  intros st spans. apply (renderHighlights_spans st spans). reflexivity.
Defined.

(** X13: whatever the issue, [handleConfirmFix] keeps the number, the order,
    the ids and the titles of the sections, and leaves the selection, the
    view mode and the active section id alone. *)
Theorem handleConfirmFix_frame (st : App.State) (issue : AnalysisIssue) :
  let st' := App.handleConfirmFix st issue in
  map id (App.sections st') = map id (App.sections st) /\
  map title (App.sections st') = map title (App.sections st) /\
  App.selection st' = App.selection st /\
  App.isFullDocMode st' = App.isFullDocMode st /\
  App.activeSectionId st' = App.activeSectionId st.
Proof.
  unfold App.handleConfirmFix.
  destruct (snippet issue) as [snip|]; [|auto 6].
  destruct (replacement issue) as [repl|]; [|auto 6].
  destruct (negb (truthy snip) || negb (truthy repl)); [auto 6|]. simpl.
  repeat split; rewrite map_map; apply map_ext; intros s; unfold App.fixSection;
    destruct (includes (content s) snip); reflexivity.
Qed.

(* ================================================================== *)
(** * Import and export *)

Lemma trim_nil_all_space (s : JSString) : trim s = [] -> allOf isWhiteSpace s.
Proof.
  unfold trim. intros H.
  destruct (trimStart_decomp s) as (w & E & Hw).
  destruct (trimEnd_decomp (trimStart s)) as (w' & E' & Hw').
  rewrite H in E'. simpl in E'. rewrite E, E'. apply allOf_app; assumption.
Qed.

Lemma find_head (s : PaperSection) (rest : list PaperSection) :
  find (fun x => JS.eqb (id x) (id s)) (s :: rest) = Some s.
Proof. simpl. rewrite (proj2 (eqb_eq (id s) (id s)) eq_refl). reflexivity. Qed.

Lemma handleImport_cases (now : nat -> N) (ui : Ui) :
  (trim (importText ui) = [] -> Handlers.handleImport now ui = ui) /\
  (trim (importText ui) <> [] ->
   let ui' := Handlers.handleImport now ui in
   App.sections (appState ui') = modularizeText now (importText ui) /\
   Handlers.activeSection (appState ui') = hd_error (App.sections (appState ui')) /\
   App.activeSectionId (appState ui') = freshId now 0 /\
   isImportModalOpen ui' = false /\ importText ui' = []).
Proof.
  unfold Handlers.handleImport. split.
  - intros ->. reflexivity.
  - intros H. rewrite (truthy_true H). simpl.
    pose proof (modularizeText_ids now (importText ui)) as Hid.
    destruct (modularizeText now (importText ui)) as [|s rest] eqn:E.
    + exfalso. exact (proj2 (modularizeText_scan now (importText ui)) E).
    + simpl in Hid. injection Hid as Hs _. simpl.
      unfold Handlers.activeSection. simpl App.activeSectionId. simpl App.sections.
      rewrite find_head. auto.
Qed.

(** X14: [handleImport] does nothing when the text is empty or whitespace
    only; otherwise it installs the sections of the text, makes the first
    of them the active section, closes the dialog and clears its text. *)
Theorem handleImport_outcomes (now : nat -> N) (ui : Ui) :
  (trim (importText ui) = [] -> Handlers.handleImport now ui = ui) /\
  (trim (importText ui) <> [] ->
   let ui' := Handlers.handleImport now ui in
   App.sections (appState ui') = modularizeText now (importText ui) /\
   Handlers.activeSection (appState ui') = hd_error (App.sections (appState ui')) /\
   App.activeSectionId (appState ui') = freshId now 0 /\
   isImportModalOpen ui' = false /\ importText ui' = []).
Proof. exact (handleImport_cases now ui). Qed.

Lemma handleImport_outcomes_witness :
  let ui := mkUi (App.mkState INITIAL_SECTIONS (lit "abstract") false None None None false)
                 false true (lit "# A" ++ [LF] ++ lit "body") in
  let ui' := Handlers.handleImport (fun _ => 9%N) ui in
  App.sections (appState ui') = modularizeText (fun _ => 9%N) (importText ui) /\
  Handlers.activeSection (appState ui') = hd_error (App.sections (appState ui')) /\
  App.activeSectionId (appState ui') = freshId (fun _ => 9%N) 0 /\
  isImportModalOpen ui' = false /\ importText ui' = [].
Proof.
  intros ui.
  apply (proj2 (handleImport_outcomes (fun _ => 9%N) ui)).
  vm_compute. discriminate.
Defined.

Lemma fullText_not_blank (secs : list PaperSection) :
  secs <> [] -> trim (App.fullText secs) <> [].
Proof.
  intros Hne H. apply trim_nil_all_space in H.
  destruct secs as [|s rest]; [contradiction|].
  assert (E : exists tl, App.fullText (s :: rest) = HASH :: tl).
  { unfold App.fullText. cbn [map].
    destruct (map App.block rest) as [|b bs].
    - exists (SPACE :: title s ++ [LF; LF] ++ content s). reflexivity.
    - exists (SPACE :: (title s ++ [LF; LF] ++ content s) ++ [LF; LF] ++ join [LF; LF] (b :: bs)).
      rewrite join_cons by discriminate. reflexivity. }
  destruct E as (tl & E). rewrite E in H. discriminate.
Qed.

(** X15: exporting a document and importing the exported text gives the
    same titles and the same contents back, for every document whose
    sections are as the sectionizer makes them (a title that is a captured
    title text; a trimmed content whose lines are content lines). *)
Theorem export_import_roundtrip (now : nat -> N) (ui : Ui) (modular : bool) :
  App.sections (appState ui) <> [] ->
  Forall goodSection (App.sections (appState ui)) ->
  importText ui = Handlers.exportPaper (appState ui) modular ->
  map titled (App.sections (appState (Handlers.handleImport now ui)))
  = map titled (App.sections (appState ui)).
Proof.
  intros Hne Hgood Htext.
  assert (T : importText ui = App.fullText (App.sections (appState ui)))
    by (rewrite Htext; destruct modular; reflexivity).
  destruct (handleImport_cases now ui) as [_ H].
  rewrite T in H. destruct (H (fullText_not_blank _ Hne)) as (E & _).
  rewrite E. apply modularizeText_fullText; assumption.
Qed.

Lemma INITIAL_SECTIONS_good : Forall goodSection INITIAL_SECTIONS.
Proof.
  unfold INITIAL_SECTIONS.
  repeat (constructor;
          [split;
           [split; [discriminate | split; [reflexivity | right; split; reflexivity]]
           |split; [first [left; reflexivity | right; split; reflexivity]
                   |split; [reflexivity
                           |vm_compute splitLines;
                            repeat (constructor;
                                    [split; [split; [vm_compute; intuition discriminate
                                                    |vm_compute; discriminate]
                                            |vm_compute; reflexivity]|]);
                            constructor]]]|]).
  constructor.
Qed.

Lemma export_import_roundtrip_witness :
  let ui := mkUi (App.mkState INITIAL_SECTIONS (lit "abstract") false None None None false)
                 false true (App.fullText INITIAL_SECTIONS) in
  map titled (App.sections (appState (Handlers.handleImport (fun _ => 9%N) ui)))
  = map titled INITIAL_SECTIONS.
Proof.
  intros ui.
  apply (export_import_roundtrip (fun _ => 9%N) ui false).
  - discriminate.
  - exact INITIAL_SECTIONS_good.
  - reflexivity.
Defined.

(* ================================================================== *)
(** * Splicing in the full-document view *)

Section FullDocumentSplice.
Variables (now : nat -> N) (st : App.State) (sel : Selection).
Variables (newSegment : JSString) (skip : bool).
Hypothesis Hsel : App.selection st = Some sel.
Hypothesis Hfull : App.isFullDocMode st = true.
Hypothesis Hunbound : App.present (sectionId sel) = false.

Lemma fullDoc_splice_sections :
  App.sections (App.updateDocumentAtSelection now st newSegment skip)
  = modularizeText now
      (App.spliceAtOffsets (App.fullText (App.sections st)) (selStart sel) (selEnd sel)
                           newSegment).
Proof.
  unfold App.updateDocumentAtSelection. rewrite Hsel, Hfull, Hunbound. simpl.
  destruct skip; reflexivity.
Qed.

Lemma fullDoc_splice_active :
  App.activeSectionId (App.updateDocumentAtSelection now st newSegment skip)
  = App.activeSectionId st.
Proof.
  unfold App.updateDocumentAtSelection. rewrite Hsel, Hfull, Hunbound. simpl.
  destruct skip; reflexivity.
Qed.
End FullDocumentSplice.



Lemma editSection_unknown_id (target value : JSString) (st : App.State) :
  (forall s, In s (App.sections st) -> id s <> target) ->
  Handlers.editSection target value st = st.
Proof.
  intros H. unfold Handlers.editSection, App.setSections.
  rewrite map_fixed; [destruct st; reflexivity|].
  intros s Hin. rewrite (proj2 (eqb_neq (id s) target) (H s Hin)). reflexivity.
Qed.

Lemma activeSection_unknown_id (st : App.State) :
  (forall s, In s (App.sections st) -> id s <> App.activeSectionId st) ->
  Handlers.activeSection st = hd_error (App.sections st).
Proof.
  intros H. unfold Handlers.activeSection.
  destruct (find _ (App.sections st)) as [s|] eqn:F; [|reflexivity].
  apply find_some in F as [Hin E]. apply eqb_eq in E. exfalso. exact (H s Hin E).
Qed.

(** X17: after a splice in the full-document view, an active section id
    that is not an ordinal id of the new run names no section any more: the
    section view then shows the first section, and what is typed into it
    (an edit addressed to the active id) changes nothing. *)
Theorem fullDoc_splice_orphans_active_id
        (now : nat -> N) (st : App.State) (sel : Selection)
        (newSegment : JSString) (skip : bool) :
  App.selection st = Some sel -> App.isFullDocMode st = true ->
  App.present (sectionId sel) = false ->
  (forall k, App.activeSectionId st <> freshId now k) ->
  let st' := App.updateDocumentAtSelection now st newSegment skip in
  Handlers.activeSection st' = hd_error (App.sections st') /\
  forall value, Handlers.editSection (App.activeSectionId st') value st' = st'.
Proof.
  intros Hsel Hfull Hunbound Hfresh st'.
  assert (U : forall s, In s (App.sections st') -> id s <> App.activeSectionId st').
  { subst st'. intros s Hin E.
    rewrite (fullDoc_splice_active now st sel newSegment skip Hsel Hfull Hunbound) in E.
    rewrite (fullDoc_splice_sections now st sel newSegment skip Hsel Hfull Hunbound) in Hin.
    apply (in_map id) in Hin. rewrite modularizeText_ids in Hin.
    apply in_map_iff in Hin as (k & Ek & _). apply (Hfresh k). congruence. }
  split; [apply activeSection_unknown_id; exact U|].
  intros value. apply editSection_unknown_id. exact U.
Qed.

Lemma fullDoc_splice_orphans_active_id_witness :
  let st := App.mkState INITIAL_SECTIONS (lit "abstract") true None None
                        (Some (mkSelection (lit "Abstract") 2 10 None)) true in
  let st' := App.updateDocumentAtSelection (fun _ => 4%N) st (lit "Summary") false in
  Handlers.activeSection st' = hd_error (App.sections st') /\
  forall value, Handlers.editSection (App.activeSectionId st') value st' = st'.
Proof.
  intros st.
  apply (fullDoc_splice_orphans_active_id (fun _ => 4%N) st
           (mkSelection (lit "Abstract") 2 10 None) (lit "Summary") false);
    try reflexivity.
  intros k. discriminate.
Defined.



(* ================================================================== *)
(** * Replies without text *)

(** X19: in the section view with pairwise different ids, a humanize or
    anonymize request to which the model replies with no text leaves every
    section as it was. *)
Theorem rewrite_without_reply_text_keeps_sections
        (now : nat -> N) (ui : Ui) (responseText : option JSString) :
  NoDup (map id (App.sections (appState ui))) ->
  App.isFullDocMode (appState ui) = false ->
  responseText = None \/ responseText = Some [] ->
  App.sections (appState (Handlers.handleHumanize ui (Resolved responseText)))
  = App.sections (appState ui) /\
  App.sections (appState (Handlers.handleAnonymize now ui (Resolved responseText)))
  = App.sections (appState ui).
Proof.
  intros Hnd Hmode Hreply.
  assert (E : App.sections
                (appState (Handlers.handleHumanize ui (Resolved responseText)))
              = App.sections (appState ui)).
  { unfold Handlers.handleHumanize.
    destruct (Handlers.activeSection (appState ui)) as [a|] eqn:A; [|reflexivity].
    assert (T : Handlers.textOr responseText (content a) = content a)
      by (destruct Hreply as [-> | ->]; reflexivity).
    rewrite T. simpl. apply map_fixed. intros s Hin.
    destruct (JS.eqb (id s) (App.activeSectionId (appState ui))) eqn:Eq; [|reflexivity].
    apply eqb_eq in Eq. unfold Handlers.activeSection in A.
    destruct (find_by_id (App.sections (appState ui))
                         (App.activeSectionId (appState ui)) Hnd) as [F _].
    rewrite (F s Hin Eq) in A. injection A as <-. apply withContent_same. }
  split; [exact E|].
  unfold Handlers.handleAnonymize. rewrite Hmode.
  unfold Handlers.handleHumanize in E. exact E.
Qed.

Lemma rewrite_without_reply_text_keeps_sections_witness :
  let ui := mkUi (App.mkState INITIAL_SECTIONS (lit "abstract") false None None None false)
                 false false [] in
  App.sections (appState (Handlers.handleHumanize ui (Resolved None)))
  = App.sections (appState ui) /\
  App.sections (appState (Handlers.handleAnonymize (fun _ => 0%N) ui (Resolved None)))
  = App.sections (appState ui).
Proof.
  intros ui.
  apply (rewrite_without_reply_text_keeps_sections (fun _ => 0%N) ui None).
  - simpl. repeat constructor; simpl; intuition discriminate.
  - reflexivity.
  - left. reflexivity.
Defined.

(* ================================================================== *)
(** * The section list is never empty *)

Section NeverEmpty.
Variable toLowerCase : JSString -> JSString.








End NeverEmpty.

(* ================================================================== *)
(** * Line endings and heading-only texts *)

Lemma splitLines_crlf_line (l s : JSString) :
  ~ In LF l -> splitLines (l ++ CR :: LF :: s) = l :: splitLines s.
Proof.
  induction l as [|c l IH]; intros H.
  - reflexivity.
  - assert (Hc : (c =? LF)%N = false)
      by (apply N.eqb_neq; intros ->; apply H; left; reflexivity).
    assert (Hl : ~ In LF l) by (intros X; apply H; right; exact X).
    specialize (IH Hl).
    change ((c :: l) ++ CR :: LF :: s) with (c :: (l ++ CR :: LF :: s)).
    cbn [splitLines]. rewrite Hc, IH.
    destruct (c =? CR)%N; [|destruct (l ++ CR :: LF :: s); reflexivity].
    destruct l as [|d l'].
    + reflexivity.
    + assert (Hd : (d =? LF)%N = false)
        by (apply N.eqb_neq; intros ->; apply Hl; left; reflexivity).
      change ((d :: l') ++ CR :: LF :: s) with (d :: (l' ++ CR :: LF :: s)).
      lazy iota. rewrite Hd. reflexivity.
Qed.

Lemma splitLines_join_crlf (ls : list JSString) :
  ls <> [] -> Forall (fun l => ~ In LF l) ls -> splitLines (join [CR; LF] ls) = ls.
Proof.
  induction ls as [|l ls IH]; [contradiction|]. intros _ H.
  inversion H as [|? ? Hl Hls]; subst.
  destruct ls as [|l2 ls].
  - simpl. apply splitLines_single. exact Hl.
  - rewrite join_cons by discriminate. simpl app.
    rewrite splitLines_crlf_line by exact Hl. f_equal. apply IH; [discriminate | exact Hls].
Qed.

(** X21: lines that hold no LF and do not end with CR give the same
    sections whether they are joined by CR LF or by LF. *)
Theorem modularizeText_line_endings (now : nat -> N) (ls : list JSString) :
  ls <> [] -> Forall lineOK ls ->
  modularizeText now (join [CR; LF] ls) = modularizeText now (join [LF] ls).
Proof.
  intros Hne H. unfold modularizeText.
  rewrite splitLines_join by assumption.
  rewrite splitLines_join_crlf; [reflexivity | exact Hne|].
  revert H. apply Forall_impl. intros l [Hl _]. exact Hl.
Qed.

Lemma modularizeText_line_endings_witness :
  modularizeText (fun _ => 2%N) (join [CR; LF] [lit "# A"; lit "body"; lit "# B"])
  = modularizeText (fun _ => 2%N) (join [LF] [lit "# A"; lit "body"; lit "# B"]).
Proof.
  apply (modularizeText_line_endings (fun _ => 2%N) [lit "# A"; lit "body"; lit "# B"]).
  - discriminate.
  - repeat (constructor; [split; [vm_compute; intuition discriminate
                                 |vm_compute; discriminate]|]).
    constructor.
Defined.

Lemma scan_heading_lines (now : nat -> N) (lines : list JSString) : forall st,
  Forall (fun l => isHeadingLine l = true) lines ->
  currentContent st = [] -> truthy (currentHeader st) = true ->
  map titled (sections (flush now (lit "Introduction")
                              (fold_left (scanLine now) lines st)))
  = map titled (sections st)
    ++ (currentHeader st, []) :: map (fun l => (headingTitle l, [])) lines.
Proof.
  induction lines as [|l ls IH]; intros st H Hc Hh.
  - simpl. unfold flush. rewrite Hc, Hh. simpl. rewrite map_app.
    unfold orElse. rewrite Hh. reflexivity.
  - inversion H as [|? ? Hl Hls]; subst. cbn [fold_left map].
    unfold isHeadingLine in Hl. unfold headingTitle at 1.
    destruct (headerMatch l) as [m|] eqn:E; [|discriminate].
    rewrite IH; [|exact Hls | unfold scanLine; rewrite E; reflexivity
                  | unfold scanLine; rewrite E; exact (headerMatch_text_nonempty l m E)].
    unfold scanLine. rewrite E. cbn [sections currentHeader].
    unfold flush. rewrite Hc, Hh. simpl. rewrite map_app.
    unfold orElse. rewrite Hh. rewrite <- app_assoc. reflexivity.
Qed.

(** X22: a text all of whose lines are heading lines gives one section per
    line, titled by that line's heading text, each with empty content (a
    heading directly followed by a heading opens an empty section). *)
Theorem modularizeText_headings_only (now : nat -> N) (text : JSString) :
  Forall (fun l => isHeadingLine l = true) (splitLines text) ->
  map titled (modularizeText now text)
  = map (fun l => (headingTitle l, [])) (splitLines text).
Proof.
  intros H. destruct (modularizeText_scan now text) as [E _]. rewrite E.
  destruct (splitLines text) as [|l ls] eqn:El;
    [exfalso; exact (splitLines_nonempty text El)|].
  inversion H as [|? ? Hl Hls]; subst. cbn [fold_left map].
  unfold isHeadingLine in Hl. unfold headingTitle at 1.
  destruct (headerMatch l) as [m|] eqn:Em; [|discriminate].
  rewrite (scan_heading_lines now ls); auto.
  - unfold scanLine. rewrite Em. reflexivity.
  - unfold scanLine. rewrite Em. reflexivity.
  - unfold scanLine. rewrite Em. exact (headerMatch_text_nonempty l m Em).
Qed.

Lemma modularizeText_headings_only_witness :
  map titled (modularizeText (fun _ => 2%N) (lit "# A" ++ [LF] ++ lit "## B"))
  = map (fun l => (headingTitle l, [])) (splitLines (lit "# A" ++ [LF] ++ lit "## B")).
Proof.
  apply (modularizeText_headings_only (fun _ => 2%N) (lit "# A" ++ [LF] ++ lit "## B")).
  vm_compute. repeat constructor.
Defined.
